(** * Smoke tests of the BMAD Method documentation site

    A shallow embedding of
    [BMAD-METHOD/.github/actions/smoke-tests/smoke-tests.js]: the link
    extractor, the retry scheduler, the five probes and the test runner,
    followed by the properties the specification states about them.

    Conventions of the embedding.
    - A JavaScript string is a [string]; each [ascii] stands for one code
      unit (code units above 255 are outside the model).
    - A JavaScript number that the program only uses as an integer is a
      [Z]; the doubles of the program are exact on the integers it meets
      (counters, status codes, clock readings).  The backoff delay, which
      grows past the range of the doubles, is a [JsNumber].
    - [async] functions are functions of the environment that return a
      completion (normal or abrupt), the environment they leave behind and
      the observable events they caused, in program order.  Every promise
      the program awaits settles, and every value thrown is an [Error]
      object.
    - What Node.js provides ([URL], [Date.now], timers, the network, [fs],
      [JSON.stringify]) is an interface the definitions are parametric in.
    - [console.log] lines are left out: no property below reads them. *)

From Stdlib Require Import ZArith Ascii String List Lia DecimalString.
From stdpp Require Import base option list list_numbers strings gmap.

Local Open Scope string_scope.
Local Open Scope list_scope.
Local Open Scope Z_scope.

(** ** Strings *)

Module Str.

(** The double quote character, code unit 34. *)
Definition dquote : ascii := "034"%char.

(** [s.startsWith(p)] *)
Definition startsWith (s p : string) : bool := String.prefix p s.

(** [s.includes(p)] *)
Fixpoint includes (s p : string) : bool :=
  String.prefix p s ||
  match s with
  | EmptyString => false
  | String _ s' => includes s' p
  end.

(** [xs.join(sep)] *)
Definition join (sep : string) (xs : list string) : string :=
  String.concat sep xs.

(** Template interpolation of an integer-valued number. *)
Definition of_Z (z : Z) : string := NilZero.string_of_int (Z.to_int z).

End Str.

(** ** Exceptions *)

(** An [Error] object; the program reads nothing but [message].  Every
    value the program throws is one: a [new Error], the error of a failed
    request, the [TypeError] of [new URL].  A test function that throws
    another value, [null] say, is outside the model. *)
Record JsError := mkError { message : string }.

(** The way an evaluation ends: normally with a value, or by a throw. *)
Inductive completion (A : Type) : Type :=
| Return (a : A)
| Throw (e : JsError).
Arguments Return {A} a.
Arguments Throw {A} e.

#[global] Instance completion_ret : MRet completion := fun _ a => Return a.
#[global] Instance completion_bind : MBind completion := fun _ _ f m =>
  match m with
  | Return a => f a
  | Throw e => Throw e
  end.

(** ** Regular expressions

    A backtracking matcher for the fragment of the regular-expression
    language that [linkRegex] is written in.  Alternatives are tried in the
    order ECMAScript prescribes: a greedy quantifier tries the longer match
    first, a lazy one the shorter; the first success wins. *)

Module Regex.

Inductive regex : Type :=
| Chr (p : ascii -> bool)        (* one code unit of a class *)
| Seq (r1 r2 : regex)            (* r1 r2 *)
| Opt (r : regex)                (* (?:r)? *)
| Star (p : ascii -> bool)       (* [class]* *)
| StarLazy (p : ascii -> bool)   (* [class]*? *)
| Group (r : regex).             (* (r), capture group 1 *)

(** [[class]+] *)
Definition Plus (p : ascii -> bool) : regex := Seq (Chr p) (Star p).

(** [\s] restricted to the code units below 256: tab, line feed, vertical
    tab, form feed, carriage return, space and no-break space. *)
Definition white_space (c : ascii) : bool :=
  let n := nat_of_ascii c in
  (Nat.leb 9 n && Nat.leb n 13) || Nat.eqb n 32 || Nat.eqb n 160.

(** A letter of the pattern under the [i] flag: both cases match. *)
Definition letter_ci (lower upper : ascii) (c : ascii) : bool :=
  Ascii.eqb c lower || Ascii.eqb c upper.

Definition exactly (a : ascii) (c : ascii) : bool := Ascii.eqb c a.
Definition other_than (a : ascii) (c : ascii) : bool := negb (Ascii.eqb c a).

Section Matcher.
Context {R : Type}.

(** The continuation receives the rest of the input and capture 1. *)
Definition cont : Type := string -> option string -> option R.

Fixpoint star_greedy (p : ascii -> bool) (k : string -> option R)
    (s : string) : option R :=
  match s with
  | String c s' =>
      if p c then
        match star_greedy p k s' with
        | Some x => Some x
        | None => k s
        end
      else k s
  | EmptyString => k s
  end.

Fixpoint star_lazy (p : ascii -> bool) (k : string -> option R)
    (s : string) : option R :=
  match k s with
  | Some x => Some x
  | None =>
      match s with
      | String c s' => if p c then star_lazy p k s' else None
      | EmptyString => None
      end
  end.

Fixpoint run (r : regex) (s : string) (cap : option string) (k : cont)
    : option R :=
  match r with
  | Chr p =>
      match s with
      | String c s' => if p c then k s' cap else None
      | EmptyString => None
      end
  | Seq r1 r2 => run r1 s cap (fun s' cap' => run r2 s' cap' k)
  | Opt r1 =>
      match run r1 s cap k with
      | Some x => Some x
      | None => k s cap
      end
  | Star p => star_greedy p (fun s' => k s' cap) s
  | StarLazy p => star_lazy p (fun s' => k s' cap) s
  | Group r1 =>
      run r1 s cap (fun s' _ =>
        k s' (Some (substring 0 (String.length s - String.length s') s)))
  end.
End Matcher.

(** A match anchored at the head of [s]: capture 1 and the number of code
    units the whole match spans. *)
Definition match_here (r : regex) (s : string) : option (option string * nat) :=
  run r s None (fun s' cap => Some (cap, (String.length s - String.length s')%nat)).

(** Successive [r.exec(s)] calls of a [g]-flagged regex, until [null]:
    each search starts at [lastIndex], the end of the previous match, and
    takes the leftmost position with a match.  [skip] counts the code
    units left before [lastIndex].  The result lists capture 1 of every
    match, in order. *)
Fixpoint exec_all (r : regex) (skip : nat) (s : string) : list (option string) :=
  match s with
  | EmptyString => []
  | String _ s' =>
      match skip with
      | S n => exec_all r n s'
      | O =>
          match match_here r s with
          | Some (cap, len) => cap :: exec_all r (Nat.pred len) s'
          | None => exec_all r O s'
          end
      end
  end.

(** A regex every match of which sets capture 1: the group lies on the
    spine of the sequence, outside every quantifier. *)
Fixpoint captures (r : regex) : bool :=
  match r with
  | Group _ => true
  | Seq r1 r2 => captures r1 || captures r2
  | _ => false
  end.

End Regex.

(** ** The [URL] class *)

(** The fields of a parsed [URL] that the program reads. *)
Record URL := mkURL {
  protocol : string;
  host : string;
  hostname : string;
  port : string;
  pathname : string;
  search : string;
}.

(** The URL parser of the platform: [None] when [new URL(s)] throws. *)
Class UrlApi := { URL_parse : string -> option URL }.

(** [new URL(s)] *)
Definition new_URL {UA : UrlApi} (s : string) : completion URL :=
  match URL_parse s with
  | Some u => Return u
  | None => Throw (mkError "Invalid URL")
  end.

(** ** Link extractor *)

Module LinkExtractor.
Import Regex.

(** The pattern of the source, flags [g] and [i]: the two code units of
    an opening anchor tag, white space, optionally a lazy run of code
    units other than the closing angle bracket followed by white space,
    then the attribute name, the equals sign, a double quote, capture 1 (a
    greedy run of code units other than the double quote) and a double
    quote. *)
Definition linkRegex : regex :=
  Seq (Chr (exactly "<"))
 (Seq (Chr (letter_ci "a" "A"))
 (Seq (Plus white_space)
 (Seq (Opt (Seq (StarLazy (other_than ">")) (Plus white_space)))
 (Seq (Chr (letter_ci "h" "H"))
 (Seq (Chr (letter_ci "r" "R"))
 (Seq (Chr (letter_ci "e" "E"))
 (Seq (Chr (letter_ci "f" "F"))
 (Seq (Chr (exactly "="))
 (Seq (Chr (exactly Str.dquote))
 (Seq (Group (Star (other_than Str.dquote)))
      (Chr (exactly Str.dquote)))))))))))).

(** [match[1]] of every iteration of the [while] loop, in order. *)
Definition hrefs (html : string) : list (option string) :=
  exec_all linkRegex O html.

(** The test of the [continue] statement. *)
Definition skipped (href : string) : bool :=
  Str.startsWith href "#" || Str.startsWith href "javascript:"
  || Str.startsWith href "mailto:" || Str.startsWith href "tel:".

Section WithUrl.
Context {UA : UrlApi}.

(** Convert relative URLs to absolute. *)
Definition absolute (href baseUrl : string) : completion string :=
  if Str.startsWith href "http://" || Str.startsWith href "https://" then
    Return href
  else if Str.startsWith href "/" then
    base ← new_URL baseUrl;
    Return (protocol base +:+ "//" +:+ host base +:+ href)
  else
    base ← new_URL baseUrl;
    Return (protocol base +:+ "//" +:+ host base +:+ "/" +:+ href).

(** One iteration of the loop body on a defined [match[1]]: [None] when
    nothing is pushed, [Some url] when [url] is pushed. *)
Definition visit (baseUrl href : string) : completion (option string) :=
  if skipped href then Return None
  else
    absoluteUrl ← absolute href baseUrl;
    baseObj ← new_URL baseUrl;
    let baseHost := host baseObj in
    linkObj ← new_URL absoluteUrl;
    let linkHost := host linkObj in
    if String.eqb baseHost linkHost then Return (Some absoluteUrl)
    else Return None.

(** The [while] loop over the matches; [links] is the array so far.
    An undefined [match[1]] would make [href.startsWith] throw. *)
Fixpoint collect (baseUrl : string) (ms : list (option string))
    (links : list string) : completion (list string) :=
  match ms with
  | [] => Return links
  | None :: _ =>
      Throw (mkError "Cannot read properties of undefined (reading 'startsWith')")
  | Some href :: ms' =>
      pushed ← visit baseUrl href;
      collect baseUrl ms'
        (match pushed with
         | Some url => links ++ [url]
         | None => links
         end)
  end.

(** [new Set(xs)] spread back into an array: a set keeps its members in
    insertion order and ignores the insertion of a member it has. *)
Definition Set_add (s : list string) (x : string) : list string :=
  if decide (x ∈ s) then s else s ++ [x].

Definition Set_of (xs : list string) : list string :=
  foldl Set_add [] xs.

Definition extractLinks (html baseUrl : string) : completion (list string) :=
  links ← collect baseUrl (hrefs html) [];
  Return (Set_of links).

(** *** Vocabulary of the statements about the extractor *)

(** [x] has an occurrence in [seen] that no [y] precedes. *)
Definition first_before (seen : list string) (x y : string) : Prop :=
  ∃ k1 k2, seen = k1 ++ x :: k2 ∧ y ∉ k1.

(** What relates the members of a set to the sequence inserted so far. *)
Record set_inv (seen s : list string) : Prop := {
  inv_nodup : NoDup s;
  inv_elem : ∀ z, z ∈ s ↔ z ∈ seen;
  inv_order : ∀ l1 x l2 y l3, s = l1 ++ x :: l2 ++ y :: l3 → first_before seen x y;
}.

(** The pushes of the loop, one per match. *)
Definition pushes_of (baseUrl : string) (ms : list (option string))
    (ps : list (option string)) : Prop :=
  Forall2 (λ m p, ∃ href, m = Some href ∧ visit baseUrl href = Return p) ms ps.

End WithUrl.
End LinkExtractor.

(** ** Asynchronous computations *)

(** What a run lets the outside world observe, in program order.  [EvCall]
    is not an effect of its own: it marks, among the effects, the point at
    which [executeTest] calls the test function. *)
Inductive event : Type :=
| EvSleep (ms : Z)                 (* a timer set to [ms] milliseconds fires *)
| EvCall (attempt : Z)             (* the point where iteration [attempt] calls [testFn()] *)
| EvRequest (url : string)         (* [makeRequest(url)] sends its request *)
| EvWriteFile (path data : string)
| EvAppendFile (path data : string).

(** [http.request] / [https.request] options built by [makeRequest]. *)
Record RequestOptions := mkRequestOptions {
  opt_https : bool;
  opt_hostname : string;
  opt_port : string;
  opt_path : string;
  opt_method : string;
  opt_timeout : Z;
}.

(** What [makeRequest] resolves with. *)
Record FetchResponse := mkFetchResponse {
  statusCode : Z;
  headers : gmap string string;
  body : string;
}.

(** ** Numbers and timers *)

(** A double of the program that need not be small: an integer it holds
    exactly, or [Infinity]. *)
Inductive JsNumber : Type :=
| Finite (z : Z)
| Infinity.

(** [Number.MAX_VALUE], the largest finite double. *)
Definition Number_MAX_VALUE : Z := (2 ^ 53 - 1) * 2 ^ 971.

(** [Math.pow(2, e)] for an integer [e >= 0]: exact up to [2^1023], then
    [Infinity]. *)
Definition Math_pow2 (e : Z) : JsNumber :=
  if e <=? 1023 then Finite (2 ^ e) else Infinity.

(** [x * k] for a positive integer [k], on the operands the program has
    (a power of two and 1000): the product is exact while it is finite, and
    [Infinity] once it is larger than [Number.MAX_VALUE]. *)
Definition times (x : JsNumber) (k : Z) : JsNumber :=
  match x with
  | Finite z => if z * k <=? Number_MAX_VALUE then Finite (z * k) else Infinity
  | Infinity => Infinity
  end.

(** The largest delay of a Node.js timer, [2^31 - 1] milliseconds. *)
Definition TIMEOUT_MAX : Z := 2 ^ 31 - 1.

(** The delay [setTimeout(callback, ms)] sets its timer to: [ms] when it
    lies between 1 and [TIMEOUT_MAX], and 1 otherwise. *)
Definition setTimeout_delay (ms : JsNumber) : Z :=
  match ms with
  | Finite z => if (1 <=? z) && (z <=? TIMEOUT_MAX) then z else 1
  | Infinity => 1
  end.

(** The part of Node.js the program runs on.  [Env] is the state of the
    outside world (clock, network, file system); every operation says what
    it answers and the state it leaves.  Every request settles: a response
    arrives, or the [error] or [timeout] event rejects the promise. *)
Class Platform := {
  Env : Type;
  Date_now : Env -> Z;
  (* the world once a timer set to [ms] milliseconds has fired *)
  timer_elapsed : Z -> Env -> Env;
  (* the exchange behind [makeRequest]: a response, or the error of the
     [error] or [timeout] event *)
  http_exchange : RequestOptions -> Env -> completion FetchResponse * Env;
  fs_writeFileSync : string -> string -> Env -> completion unit * Env;
  fs_appendFileSync : string -> string -> Env -> completion unit * Env;
}.

(** [process.env], as read at the top of the script.  [SITE_URL] is only
    ever converted to a string, so an unset variable is the string
    [undefined]; a [MAX_RETRIES] that parses to [NaN] fails every loop test
    like a negative number does. *)
Class ProcessEnv := {
  SITE_URL : string;
  TIMEOUT : Z;
  MAX_RETRIES : Z;
  GITHUB_OUTPUT : option string;
}.

Record Run (E A : Type) := mkRun {
  outcome : completion A;
  final : E;
  trace : list event;
}.
Arguments mkRun {E A} outcome final trace.
Arguments outcome {E A} r.
Arguments final {E A} r.
Arguments trace {E A} r.

Definition Async {PF : Platform} (A : Type) : Type := Env -> Run Env A.

(** The events of [r], after those in [t]. *)
Definition after {E A} (t : list event) (r : Run E A) : Run E A :=
  mkRun (outcome r) (final r) (t ++ trace r).

Section AsyncOps.
Context {PF : Platform}.

#[global] Instance async_ret : MRet Async := fun _ a w => mkRun (Return a) w [].

#[global] Instance async_bind : MBind Async := fun _ _ f m w =>
  let r := m w in
  match outcome r with
  | Return a => after (trace r) (f a (final r))
  | Throw e => mkRun (Throw e) (final r) (trace r)
  end.

Definition throw {A} (e : JsError) : Async A := fun w => mkRun (Throw e) w [].

(** [try { body } catch (error) { handler }] *)
Definition try_catch {A} (body : Async A) (handler : JsError -> Async A)
    : Async A := fun w =>
  let r := body w in
  match outcome r with
  | Return a => r
  | Throw e => after (trace r) (handler e (final r))
  end.

(** A synchronous evaluation inside an [async] function. *)
Definition sync {A} (c : completion A) : Async A := fun w => mkRun c w [].

Definition emit (ev : event) : Async unit := fun w => mkRun (Return tt) w [ev].

Definition now : Async Z := fun w => mkRun (Return (Date_now w)) w [].

(** [for (const x of xs) { await f(x) }] *)
Fixpoint for_of {A} (xs : list A) (f : A -> Async unit) : Async unit :=
  match xs with
  | [] => mret tt
  | x :: xs' => f x ;; for_of xs' f
  end.

(** [sleep(ms)]: the promise resolves when the timer that
    [setTimeout(resolve, ms)] sets has fired. *)
Definition sleep (ms : JsNumber) : Async unit := fun w =>
  let delay := setTimeout_delay ms in
  mkRun (Return tt) (timer_elapsed delay w) [EvSleep delay].

(** The request is sent and the promise settles. *)
Definition exchange (o : RequestOptions) : Async FetchResponse := fun w =>
  let (c, w') := http_exchange o w in mkRun c w' [].

End AsyncOps.

(** ** HTTP fetcher *)

Section Fetcher.
Context {UA : UrlApi} {PF : Platform} {PE : ProcessEnv}.

(** [makeRequest(url)]; no call site passes [options], so the method is
    GET and there are no headers.  A throw of [new URL] inside the promise
    executor rejects the promise. *)
Definition makeRequest (url : string) : Async FetchResponse :=
  match URL_parse url with
  | None => throw (mkError "Invalid URL")
  | Some urlObj =>
      let requestOptions :=
        {| opt_https := String.eqb (protocol urlObj) "https:";
           opt_hostname := hostname urlObj;
           opt_port := port urlObj;
           opt_path := pathname urlObj +:+ search urlObj;
           opt_method := "GET";
           opt_timeout := TIMEOUT |} in
      emit (EvRequest url) ;;
      exchange requestOptions
  end.

End Fetcher.

(** ** Retry scheduler *)

Inductive Status : Type := passed | failed.

#[global] Instance Status_eq_dec : EqDecision Status.
Proof. solve_decision. Defined.

Record ProbeResult := mkProbeResult {
  name : string;
  status : Status;
  duration : Z;
  attempts : Z;
  error : option string;
}.

Section Scheduler.
Context {PF : Platform}.

(** The [for] loop of [executeTest]; [idx] lists the values [attempt] has
    yet to take.  A normal end of the [try] block returns from the
    function, a throw is caught and the loop goes on.  After the loop,
    [lastError.message] throws a [TypeError] when [lastError] is [null]. *)
Fixpoint attempt_loop (testName : string) (testFn : Async unit)
    (retries startTime : Z) (idx : list Z) (lastError : option JsError)
    : Async ProbeResult :=
  match idx with
  | attempt :: idx' =>
      try_catch
        ((if 0 <? attempt then
            let backoffMs := times (Math_pow2 attempt) 1000 in
            sleep backoffMs
          else mret tt) ;;
         emit (EvCall attempt) ;;
         testFn ;;
         t ← now;
         let duration := t - startTime in
         mret {| name := testName; status := passed; duration := duration;
                 attempts := attempt + 1; error := None |})
        (fun error =>
           attempt_loop testName testFn retries startTime idx' (Some error))
  | [] =>
      t ← now;
      let duration := t - startTime in
      match lastError with
      | Some e =>
          mret {| name := testName; status := failed; duration := duration;
                  attempts := retries + 1; error := Some (message e) |}
      | None =>
          throw (mkError "Cannot read properties of null (reading 'message')")
      end
  end.

(** [for (let attempt = 0; attempt <= retries; attempt++)] visits
    [0, 1, ..., retries], and nothing when [retries] is negative. *)
Definition executeTest (testName : string) (testFn : Async unit)
    (retries : Z) : Async ProbeResult :=
  startTime ← now;
  attempt_loop testName testFn retries startTime (seqZ 0 (retries + 1)) None.

(** *** Vocabulary of the statements about the scheduler *)

(** The delay of the timer that iteration [a] sets before it retries. *)
Definition backoff_delay (a : Z) : Z :=
  setTimeout_delay (times (Math_pow2 a) 1000).

(** The world in which invocation number [i] (counted from 0) of [testFn]
    starts, when every earlier invocation has thrown: the first one starts
    in [w], a later one once the timer set after its predecessor has
    fired. *)
Fixpoint env_at (testFn : Async unit) (w : Env) (i : nat) : Env :=
  match i with
  | O => w
  | S j => timer_elapsed (backoff_delay (Z.of_nat (S j)))
             (final (testFn (env_at testFn w j)))
  end.

(** The world in which the invocation of iteration [a] starts, when the
    iteration is entered in [w]. *)
Definition entered (a : Z) (w : Env) : Env :=
  if 0 <? a then timer_elapsed (backoff_delay a) w else w.

(** The events that are the scheduler's own. *)
Definition scheduler_event (ev : event) : bool :=
  match ev with
  | EvSleep _ | EvCall _ => true
  | _ => false
  end.

(** An action that neither sleeps nor enters a test function. *)
Definition quiet {A} (testFn : Async A) : Prop :=
  ∀ w, Forall (λ ev, scheduler_event ev = false) (trace (testFn w)).

(** What the scheduler does around invocation [a]: nothing before the
    first one, a timer of [backoff_delay a] before retry [a]. *)
Definition schedule_step (a : Z) : list event :=
  (if 0 <? a then [EvSleep (backoff_delay a)] else []) ++ [EvCall a].



End Scheduler.

(** ** Probe suite *)

(** An entry of [brokenLinks]: [{ url, status }] or [{ url, error }]. *)
Inductive BrokenLink : Type :=
| BrokenStatus (url : string) (code : Z)
| BrokenError (url : string) (msg : string).

Section Probes.
Context {UA : UrlApi} {PF : Platform} {PE : ProcessEnv}.

(** Test: Homepage loads.  [headers['content-type'] || ''] is the empty
    string both for an absent header and for an empty one. *)
Definition testHomepageLoads : Async unit :=
  response ← makeRequest SITE_URL;
  if negb (statusCode response =? 200) then
    throw (mkError ("Expected status 200, got " +:+ Str.of_Z (statusCode response)))
  else
    let contentType := default EmptyString (headers response !! "content-type") in
    if negb (Str.includes contentType "text/html") then
      throw (mkError ("Expected content-type to include text/html, got " +:+ contentType))
    else if Nat.eqb (String.length (body response)) 0 then
      throw (mkError "Response body is empty")
    else mret tt.

(** Test: Documentation pages accessible. *)
Definition testDocumentationPages : Async unit :=
  let pages := ["/docs/"; "/docs/workflows/"; "/docs/agents/"] in
  for_of pages (fun page =>
    let url := SITE_URL +:+ page in
    response ← makeRequest url;
    if negb (statusCode response =? 200) then
      throw (mkError ("Page " +:+ page +:+ " returned status "
                      +:+ Str.of_Z (statusCode response)))
    else mret tt).

(** Test: Search functionality works. *)
Definition testSearchFunctionality : Async unit :=
  let searchUrl := SITE_URL +:+ "/pagefind/pagefind.js" in
  response ← makeRequest searchUrl;
  if negb (statusCode response =? 200) then
    throw (mkError ("Search script not found (status "
                    +:+ Str.of_Z (statusCode response) +:+ ")"))
  else if Nat.eqb (String.length (body response)) 0 then
    throw (mkError "Search script is empty")
  else mret tt.

(** Test: Assets load correctly. *)
Definition testAssetsLoad : Async unit :=
  let assets := ["/favicon.svg"; "/_astro/"] in
  for_of assets (fun asset =>
    let url := SITE_URL +:+ asset in
    response ← makeRequest url;
    if negb (bool_decide (statusCode response ∈ [200; 301; 302; 403])) then
      throw (mkError ("Asset " +:+ asset +:+ " returned unexpected status "
                      +:+ Str.of_Z (statusCode response)))
    else mret tt).

(** The body of the loop of [testNoBrokenLinks] for one link; the result
    is [brokenLinks] after the iteration. *)
Definition check_link (link : string) (brokenLinks : list BrokenLink)
    : Async (list BrokenLink) :=
  try_catch
    (linkResponse ← makeRequest link;
     if 400 <=? statusCode linkResponse then
       mret (brokenLinks ++ [BrokenStatus link (statusCode linkResponse)])
     else mret brokenLinks)
    (fun error => mret (brokenLinks ++ [BrokenError link (message error)])).

(** [for (const link of linksToCheck)] *)
Fixpoint check_links (linksToCheck : list string) (brokenLinks : list BrokenLink)
    : Async (list BrokenLink) :=
  match linksToCheck with
  | [] => mret brokenLinks
  | link :: rest =>
      brokenLinks' ← check_link link brokenLinks;
      check_links rest brokenLinks'
  end.

(** [`${b.url} (${b.status || b.error})`]; a recorded status is at least
    400, hence truthy. *)
Definition describe (b : BrokenLink) : string :=
  match b with
  | BrokenStatus url code => url +:+ " (" +:+ Str.of_Z code +:+ ")"
  | BrokenError url msg => url +:+ " (" +:+ msg +:+ ")"
  end.

(** Test: No broken links on homepage. *)
Definition testNoBrokenLinks : Async unit :=
  response ← makeRequest SITE_URL;
  if negb (statusCode response =? 200) then
    throw (mkError ("Homepage returned status " +:+ Str.of_Z (statusCode response)))
  else
    links ← sync (LinkExtractor.extractLinks (body response) SITE_URL);
    let linksToCheck := take 20 links in
    brokenLinks ← check_links linksToCheck [];
    if (0 <? length brokenLinks)%nat then
      let brokenList := Str.join ", " (describe <$> brokenLinks) in
      throw (mkError ("Found " +:+ Str.of_Z (Z.of_nat (length brokenLinks))
                      +:+ " broken links: " +:+ brokenList))
    else mret tt.

(** *** Vocabulary of the statements about the probes *)

(** The URLs requested in a trace, in order. *)
Definition requests (t : list event) : list string :=
  omap (λ ev, match ev with EvRequest url => Some url | _ => None end) t.

End Probes.

(** ** Test runner *)

Record Summary := mkSummary {
  total : Z;
  passed_count : Z;
  failed_count : Z;
  total_duration : Z;
}.

(** The [testResults] object; [summary.passed] and [summary.failed] are
    [passed_count] and [failed_count] here, [summary.duration] is
    [total_duration]. *)
Record RunReport := mkRunReport {
  summary : Summary;
  tests : list ProbeResult;
}.

(** [testResults] as the script creates it. *)
Definition testResults_init : RunReport :=
  {| summary := mkSummary 0 0 0 0; tests := [] |}.

(** [JSON.stringify(testResults, null, indent)]. *)
Class JsonApi := { JSON_stringify : Z -> RunReport -> string }.

(** How [runTests] stops when it does not throw. *)
Inductive Ending : Type :=
| Resolved                (* the function returns *)
| Exited (code : Z).      (* [process.exit(code)] *)

(** *** Vocabulary of the statements about the runner *)

(** The invariant of a probe result. *)
Definition result_ok (maxRetries : Z) (p : ProbeResult) : Prop :=
  1 ≤ attempts p ≤ maxRetries + 1 ∧ (is_Some (error p) ↔ status p = failed).

(** The invariants of a report. *)
Definition report_ok (maxRetries : Z) (rep : RunReport) : Prop :=
  total (summary rep) = Z.of_nat (length (tests rep)) ∧
  passed_count (summary rep) + failed_count (summary rep) = total (summary rep) ∧
  ∀ p, p ∈ tests rep → result_ok maxRetries p.

(** The number of results with a given status. *)
Definition count_status (s : Status) (ps : list ProbeResult) : Z :=
  Z.of_nat (length (filter (λ p, status p = s) ps)).

(** The counters say how many results passed and how many failed. *)
Definition counters_ok (rep : RunReport) : Prop :=
  passed_count (summary rep) = count_status passed (tests rep) ∧
  failed_count (summary rep) = count_status failed (tests rep).

Section Runner.
Context {UA : UrlApi} {PF : Platform} {PE : ProcessEnv} {JA : JsonApi}.

(** The body of the [for] loop after [executeTest] has settled. *)
Definition record (testResults : RunReport) (result : ProbeResult) : RunReport :=
  let s := summary testResults in
  let tests' := tests testResults ++ [result] in
  let total' := total s + 1 in
  match status result with
  | passed =>
      {| summary := mkSummary total' (passed_count s + 1) (failed_count s)
                      (total_duration s);
         tests := tests' |}
  | failed =>
      {| summary := mkSummary total' (passed_count s) (failed_count s + 1)
                      (total_duration s);
         tests := tests' |}
  end.

(** [for (const test of tests)], threading [testResults]. *)
Fixpoint run_each (suite : list (string * Async unit)) (testResults : RunReport)
    : Async RunReport :=
  match suite with
  | [] => mret testResults
  | test :: suite' =>
      result ← executeTest (fst test) (snd test) MAX_RETRIES;
      run_each suite' (record testResults result)
  end.

Definition newline : string := String "010"%char EmptyString.

(** The lines appended to the [GITHUB_OUTPUT] file. *)
Definition github_output (testResults : RunReport) : string :=
  let s := summary testResults in
  Str.join newline
    [ "results=" +:+ JSON_stringify 0 testResults;
      "passed=" +:+ (if failed_count s =? 0 then "true" else "false");
      "total=" +:+ Str.of_Z (total s);
      "passed-count=" +:+ Str.of_Z (passed_count s);
      "failed-count=" +:+ Str.of_Z (failed_count s) ].

Definition writeFileSync (path data : string) : Async unit := fun w =>
  let (c, w') := fs_writeFileSync path data w in mkRun c w' [EvWriteFile path data].

Definition appendFileSync (path data : string) : Async unit := fun w =>
  let (c, w') := fs_appendFileSync path data w in mkRun c w' [EvAppendFile path data].

(** [runTests] up to the assignment of [summary.duration]: the value of
    [testResults] that is then written out. *)
Definition run_probes (suite : list (string * Async unit)) : Async RunReport :=
  overallStartTime ← now;
  testResults ← run_each suite testResults_init;
  t ← now;
  mret {| summary := mkSummary (total (summary testResults))
                       (passed_count (summary testResults))
                       (failed_count (summary testResults))
                       (t - overallStartTime);
          tests := tests testResults |}.

(** [runTests] over a given [tests] array.  The result pairs the final
    [testResults] with the way the function stops. *)
Definition runTests_on (suite : list (string * Async unit))
    : Async (RunReport * Ending) :=
  testResults ← run_probes suite;
  writeFileSync "/tmp/smoke-test-results.json" (JSON_stringify 2 testResults) ;;
  (match GITHUB_OUTPUT with
   | Some path =>
       if negb (String.eqb path EmptyString) then
         appendFileSync path (github_output testResults +:+ newline)
       else mret tt
   | None => mret tt
   end) ;;
  if 0 <? failed_count (summary testResults) then
    mret (testResults, Exited 1)
  else mret (testResults, Resolved).

(** The [tests] array of [runTests]. *)
Definition suite : list (string * Async unit) :=
  [ ("Homepage loads", testHomepageLoads);
    ("Documentation pages accessible", testDocumentationPages);
    ("Search functionality works", testSearchFunctionality);
    ("Assets load correctly", testAssetsLoad);
    ("No broken links on homepage", testNoBrokenLinks) ].

Definition runTests : Async (RunReport * Ending) := runTests_on suite.

(** The exit status of the process for a settled [runTests()]: the code
    given to [process.exit], 1 from the [catch] handler of the last line,
    and 0 when the script simply runs to its end. *)
Definition exit_status (c : completion (RunReport * Ending)) : Z :=
  match c with
  | Return (_, Exited code) => code
  | Return (_, Resolved) => 0
  | Throw _ => 1
  end.

End Runner.

(** ** A reference platform

    A small instance of the interfaces, on which the definitions can be
    run: a parser for plain [scheme://authority/path?query] strings, and a
    world made of a clock and a static site that starts answering at a
    given time. *)

Module Demo.

(** The prefix of [s] before the first code unit satisfying [stop], and
    the rest from that code unit on. *)
Fixpoint split_at (stop : ascii -> bool) (s : string) : string * string :=
  match s with
  | EmptyString => (EmptyString, EmptyString)
  | String c s' =>
      if stop c then (EmptyString, s)
      else let (a, b) := split_at stop s' in (String c a, b)
  end.

Definition one_of (cs : list ascii) (c : ascii) : bool :=
  existsb (Ascii.eqb c) cs.

Definition drop_prefix (p s : string) : option string :=
  if String.prefix p s
  then Some (substring (String.length p) (String.length s - String.length p) s)
  else None.

Definition parse (s : string) : option URL :=
  let (scheme, r) := split_at (one_of [":"; "/"; "?"; "#"]%char) s in
  if Nat.eqb (String.length scheme) 0 then None
  else
    match drop_prefix "://" r with
    | None => None
    | Some r1 =>
        let (authority, r2) := split_at (one_of ["/"; "?"; "#"]%char) r1 in
        if Nat.eqb (String.length authority) 0 then None
        else
          let (hostname, r3) := split_at (one_of [":"]%char) authority in
          let (path, r4) := split_at (one_of ["?"; "#"]%char) r2 in
          let (query, _) := split_at (one_of ["#"]%char) r4 in
          Some {| protocol := scheme +:+ ":";
                  host := authority;
                  hostname := hostname;
                  port := match drop_prefix ":" r3 with
                          | Some p => p
                          | None => EmptyString
                          end;
                  pathname := if Nat.eqb (String.length path) 0 then "/" else path;
                  search := query |}
    end.

#[export] Instance url_api : UrlApi := {| URL_parse := parse |}.

Record World := mkWorld {
  clock : Z;                               (* milliseconds *)
  up_since : Z;                            (* the site refuses connections before *)
  pages : list (string * FetchResponse);   (* by request path *)
}.

Definition refused : JsError := mkError "connect ECONNREFUSED".

Definition not_found : FetchResponse :=
  {| statusCode := 404; headers := ∅; body := "Not Found" |}.

Fixpoint lookup_page (path : string) (ps : list (string * FetchResponse))
    : FetchResponse :=
  match ps with
  | [] => not_found
  | (p, r) :: ps' => if String.eqb p path then r else lookup_page path ps'
  end.

Definition serve (o : RequestOptions) (w : World) : completion FetchResponse * World :=
  if clock w <? up_since w then (Throw refused, w)
  else (Return (lookup_page (opt_path o) (pages w)), w).

#[export] Instance platform : Platform := {|
  Env := World;
  Date_now := clock;
  timer_elapsed := fun ms w => mkWorld (clock w + ms) (up_since w) (pages w);
  http_exchange := serve;
  fs_writeFileSync := fun _ _ w => (Return tt, w);
  fs_appendFileSync := fun _ _ w => (Return tt, w);
|}.

#[export] Instance json_api : JsonApi := {| JSON_stringify := fun _ _ => "{}" |}.

Definition process_env (retries : Z) : ProcessEnv :=
  {| SITE_URL := "https://docs.example.org"; TIMEOUT := 300000;
     MAX_RETRIES := retries; GITHUB_OUTPUT := None |}.

Definition html_page (content : string) : FetchResponse :=
  {| statusCode := 200;
     headers := {[ "content-type" := "text/html; charset=utf-8" ]};
     body := content |}.

(** An anchor tag with the given [href]. *)
Definition anchor (href : string) : string :=
  "<a href=" +:+ String Str.dquote EmptyString +:+ href
  +:+ String Str.dquote EmptyString +:+ ">link</a>".

(** A homepage and the links it holds. *)
Definition base_url : string := "https://docs.example.org".

Definition page : string :=
  anchor "#top" +:+ anchor "/guide" +:+ anchor "mailto:team@example.org"
  +:+ anchor "install" +:+ anchor "https://github.com/example"
  +:+ anchor "/guide" +:+ anchor "//cdn.example.net/lib.js"
  +:+ anchor "https://docs.example.org/install".

Definition page_links : list string :=
  [ "https://docs.example.org/guide";
    "https://docs.example.org/install";
    "https://docs.example.org//cdn.example.net/lib.js" ].

(** The configuration of the examples: two retries. *)
#[export] Instance demo_env : ProcessEnv := process_env 2.

Definition plain (code : Z) (content : string) : FetchResponse :=
  {| statusCode := code; headers := ∅; body := content |}.

(** A homepage with 25 links, [/p1] to [/p25]. *)
Definition long_page : string :=
  String.concat EmptyString ((λ i, anchor ("/p" +:+ Str.of_Z i)) <$> seqZ 1 25).

(** A site on which every probe passes. *)
Definition site : list (string * FetchResponse) :=
  [ ("/", html_page page);
    ("/docs/", html_page "docs");
    ("/docs/workflows/", html_page "workflows");
    ("/docs/agents/", html_page "agents");
    ("/pagefind/pagefind.js", plain 200 "search");
    ("/favicon.svg", plain 200 "<svg/>");
    ("/_astro/", plain 403 "Forbidden");
    ("/guide", html_page "guide");
    ("/install", html_page "install");
    ("//cdn.example.net/lib.js", plain 200 "lib") ].

(** The site, answering from the start. *)
Definition world_up : World := mkWorld 0 0 site.

(** The site, refusing connections during the first three seconds. *)
Definition world_late : World := mkWorld 0 3000 site.

(** The site, refusing connections for a long time. *)
Definition world_down : World := mkWorld 0 1000000 site.

(** A site whose homepage comes without a [content-type] header. *)
Definition world_untyped : World := mkWorld 0 0 [("/", plain 200 "<html></html>")].

(** A site whose homepage is [long_page]; the linked pages are missing. *)
Definition world_long : World := mkWorld 0 0 [("/", html_page long_page)].

(** The links of [long_page]. *)
Definition long_page_links : list string :=
  (λ i, "https://docs.example.org/p" +:+ Str.of_Z i) <$> seqZ 1 25.

(** The report of a run in which every probe passes at once. *)
Definition report_up : RunReport :=
  let result name := mkProbeResult name passed 0 1 None in
  {| summary := mkSummary 5 5 0 0;
     tests := [ result "Homepage loads";
                result "Documentation pages accessible";
                result "Search functionality works";
                result "Assets load correctly";
                result "No broken links on homepage" ] |}.

End Demo.

(** ** Further vocabulary *)

(** *** What a regular expression matches *)

Module RegexSpec.
Import Regex.

(** Every code unit of [s] is in the class [p]. *)
Fixpoint all_chars (p : ascii -> bool) (s : string) : bool :=
  match s with
  | EmptyString => true
  | String c s' => p c && all_chars p s'
  end.

(** [matches r u cap cap']: the regex [r] can consume exactly [u], turning
    capture 1 from [cap] into [cap'].  This says which strings match, not
    which match the backtracking order picks. *)
Inductive matches : regex -> string -> option string -> option string -> Prop :=
| matches_chr p c cap :
    p c = true -> matches (Chr p) (String c EmptyString) cap cap
| matches_seq r1 r2 u1 u2 cap cap1 cap2 :
    matches r1 u1 cap cap1 -> matches r2 u2 cap1 cap2 ->
    matches (Seq r1 r2) (u1 +:+ u2) cap cap2
| matches_opt_taken r u cap cap' :
    matches r u cap cap' -> matches (Opt r) u cap cap'
| matches_opt_skipped r cap :
    matches (Opt r) EmptyString cap cap
| matches_star p u cap :
    all_chars p u = true -> matches (Star p) u cap cap
| matches_star_lazy p u cap :
    all_chars p u = true -> matches (StarLazy p) u cap cap
| matches_group r u cap cap' :
    matches r u cap cap' -> matches (Group r) u cap (Some u).

End RegexSpec.

(** The text of a match of [linkRegex]: an opening anchor, white space
    [sp], more of the tag [mid], the attribute name in the letters [h], [r],
    [e], [f], and the quoted [href]. *)
Definition anchor_text (a : ascii) (sp mid : string) (h r e f : ascii)
    (href : string) : string :=
  String "<" (String a (sp +:+ mid +:+
    String h (String r (String e (String f (String "=" (String Str.dquote
      (href +:+ String Str.dquote EmptyString)))))))).

(** *** Requests made one after the other *)

Section RequestChains.
Context {UA : UrlApi} {PF : Platform} {PE : ProcessEnv}.

(** The world once the [urls] have been requested in turn, from [w] on. *)
Definition after_requests (urls : list string) (w : Env) : Env :=
  foldl (λ w' url, final (makeRequest url w')) w urls.

(** Requested in turn from [w] on, every one of the [urls] is answered,
    and with a response that [ok] accepts. *)
Fixpoint all_answer (ok : FetchResponse -> bool) (urls : list string) (w : Env)
    : Prop :=
  match urls with
  | [] => True
  | url :: rest =>
      (∃ response, outcome (makeRequest url w) = Return response ∧
                   ok response = true) ∧
      all_answer ok rest (final (makeRequest url w))
  end.

(** The body that the two page-list probes share: request the page under
    the site, throw [err] unless [ok] accepts the response. *)
Definition page_check (ok : FetchResponse -> bool)
    (err : string -> FetchResponse -> JsError) (page : string) : Async unit :=
  response ← makeRequest (SITE_URL +:+ page);
  if negb (ok response) then throw (err page response) else mret tt.

(** What the link probe records for [link], given how its request ends. *)
Definition link_verdict (link : string) (c : completion FetchResponse)
    : list BrokenLink :=
  match c with
  | Return response =>
      if 400 <=? statusCode response
      then [BrokenStatus link (statusCode response)] else []
  | Throw e => [BrokenError link (message e)]
  end.

(** The broken links among [links], requested in turn from [w] on. *)
Fixpoint broken_among (links : list string) (w : Env) : list BrokenLink :=
  match links with
  | [] => []
  | link :: rest =>
      link_verdict link (outcome (makeRequest link w))
      ++ broken_among rest (final (makeRequest link w))
  end.

End RequestChains.

(** The write of the report file. *)
Definition report_written {JA : JsonApi} (rep : RunReport) : event :=
  EvWriteFile "/tmp/smoke-test-results.json" (JSON_stringify 2 rep).

(** An [href] that is not skipped and whose resolution cannot be parsed,
    or that meets a base URL that cannot. *)
Definition unparsable {UA : UrlApi} (baseUrl href : string) : Prop :=
  LinkExtractor.skipped href = false ∧
  (URL_parse baseUrl = None ∨
   ∃ absoluteUrl, LinkExtractor.absolute href baseUrl = Return absoluteUrl ∧
                  URL_parse absoluteUrl = None).

(** ** More of the reference platform *)

Module DemoMore.
Import Demo.

(** The configuration when [SITE_URL] is not set. *)
Definition unset_env : ProcessEnv :=
  {| SITE_URL := "undefined"; TIMEOUT := 300000; MAX_RETRIES := 2;
     GITHUB_OUTPUT := None |}.

(** A configuration with a negative number of retries. *)
Definition negative_env : ProcessEnv := process_env (-1).

(** The configuration of a run inside a workflow. *)
Definition workflow_env : ProcessEnv :=
  {| SITE_URL := "https://docs.example.org"; TIMEOUT := 300000; MAX_RETRIES := 2;
     GITHUB_OUTPUT := Some "/tmp/github_output" |}.

Definition read_only : JsError := mkError "EROFS: read-only file system".

(** The reference platform on a file system that refuses every write. *)
Definition read_only_platform : Platform := {|
  Env := World;
  Date_now := clock;
  timer_elapsed := fun ms w => mkWorld (clock w + ms) (up_since w) (pages w);
  http_exchange := serve;
  fs_writeFileSync := fun _ _ w => (Throw read_only, w);
  fs_appendFileSync := fun _ _ w => (Throw read_only, w);
|}.

(** The site without its page [/docs/workflows/]. *)
Definition world_docs_gap : World :=
  mkWorld 0 0 [ ("/", html_page page); ("/docs/", html_page "docs");
                ("/docs/agents/", html_page "agents") ].


(** The result of the homepage probe on a site that stays down. *)
Definition homepage_failed : ProbeResult :=
  {| name := "Homepage loads"; status := failed; duration := 6000; attempts := 3;
     error := Some "connect ECONNREFUSED" |}.

End DemoMore.

(** * Properties *)

(** ** Regular expressions *)

Module RegexFacts.
Import Regex.

Section Run.
Context {R : Type}.

Lemma star_greedy_called p (k : string → option R) s x :
  star_greedy p k s = Some x → ∃ s', k s' = Some x.
Proof.
  induction s as [|c s IH]; cbn; [eauto|].
  destruct (p c); [|eauto].
  destruct (star_greedy p k s) as [y|]; [|eauto].
  intros [= ->]. by apply IH.
Qed.

Lemma star_lazy_called p (k : string → option R) s x :
  star_lazy p k s = Some x → ∃ s', k s' = Some x.
Proof.
  induction s as [|c s IH]; cbn.
  - destruct (k EmptyString) eqn:E; [|done]. intros [= ->]. eauto.
  - destruct (k (String c s)) eqn:E; [intros [= ->]; eauto|].
    destruct (p c); [|done]. apply IH.
Qed.

(** A result of [run] is a result of its continuation, and a capture that
    is set stays set. *)
Lemma run_called (r : regex) : ∀ s cap (k : cont) (x : R),
  run r s cap k = Some x →
  ∃ s' cap', k s' cap' = Some x ∧ (is_Some cap → is_Some cap').
Proof.
  induction r as [p|r1 IH1 r2 IH2|r1 IH1|p|p|r1 IH1]; intros s cap k x; cbn.
  - destruct s as [|c s]; [done|]. destruct (p c); [|done]. eauto.
  - intros (s1 & c1 & (s2 & c2 & Hk & H2)%IH2 & H1)%IH1. eauto 6.
  - destruct (run r1 s cap k) as [y|] eqn:E; [|eauto].
    intros [= ->]. by apply IH1 in E.
  - intros (s' & Hk)%star_greedy_called. eauto.
  - intros (s' & Hk)%star_lazy_called. eauto.
  - intros (s' & c' & Hk & _)%IH1. eauto.
Qed.

(** When the group lies on the spine, the continuation gets a capture. *)
Lemma run_captures (r : regex) : ∀ s cap (k : cont) (x : R),
  captures r = true →
  run r s cap k = Some x →
  ∃ s' cap', k s' cap' = Some x ∧ is_Some cap'.
Proof.
  induction r as [p|r1 IH1 r2 IH2|r1 IH1|p|p|r1 IH1]; intros s cap k x; cbn;
    try done.
  - intros [H1|H2]%orb_true_iff.
    + intros (s1 & c1 & (s2 & c2 & Hk & Hc)%run_called & Hc1)%IH1; eauto.
    + intros (s1 & c1 & Hr2 & _)%run_called. by eapply IH2.
  - intros _ (s' & c' & Hk & _)%run_called. eauto.
Qed.

End Run.

Lemma exec_all_defined r : captures r = true →
  ∀ s skip, Forall is_Some (exec_all r skip s).
Proof.
  intros Hr. induction s as [|c s IH]; intros skip; cbn; [constructor|].
  destruct skip as [|n]; [|apply IH].
  destruct (match_here r (String c s)) as [[cap len]|] eqn:E; [|apply IH].
  constructor; [|apply IH].
  unfold match_here in E.
  apply run_captures in E as (s' & cap' & [= <- _] & Hc); done.
Qed.

End RegexFacts.

(** ** Link extractor *)

Lemma startsWith_inv (s p : string) :
  Str.startsWith s p = true → ∃ r, s = p +:+ r.
Proof.
  unfold Str.startsWith. revert s.
  induction p as [|c p IH]; intros s.
  - intros _. by exists s.
  - destruct s as [|d s]; simpl; [done|].
    destruct (ascii_dec c d) as [<-|]; [|done].
    intros (r & ->)%IH. by exists r.
Qed.

Module LinkExtractorFacts.
Import LinkExtractor.

Section SetOf.

Lemma elem_of_Set_add (s : list string) (x z : string) :
  z ∈ Set_add s x ↔ z ∈ s ∨ z = x.
Proof.
  unfold Set_add. destruct (decide (x ∈ s)) as [Hin|Hout].
  - split; [auto|]. intros [?| ->]; auto.
  - rewrite elem_of_app, list_elem_of_singleton. tauto.
Qed.

Lemma NoDup_Set_add (s : list string) (x : string) :
  NoDup s → NoDup (Set_add s x).
Proof.
  intros Hs. unfold Set_add. destruct (decide (x ∈ s)) as [Hin|Hout]; [done|].
  apply NoDup_app. split; [done|]. split; [|apply NoDup_singleton].
  intros y Hy ->%list_elem_of_singleton. done.
Qed.

Lemma first_before_snoc seen x y z :
  first_before seen x y → first_before (seen ++ [z]) x y.
Proof.
  intros (k1 & k2 & -> & Hy). exists k1, (k2 ++ [z]).
  by rewrite <- app_assoc.
Qed.

Lemma set_inv_step seen s z :
  set_inv seen s → set_inv (seen ++ [z]) (Set_add s z).
Proof.
  intros [Hnd Hel Hord]. split.
  - by apply NoDup_Set_add.
  - intros u. rewrite elem_of_Set_add, elem_of_app, list_elem_of_singleton, Hel. tauto.
  - intros l1 x l2 y l3. unfold Set_add.
    destruct (decide (z ∈ s)) as [Hin|Hout].
    + intros E. apply first_before_snoc. eauto.
    + intros E. destruct l3 as [|u l3' _] using rev_ind.
      * replace (l1 ++ x :: l2 ++ [y]) with ((l1 ++ x :: l2) ++ [y]) in E
          by (rewrite <- app_assoc; done).
        apply app_inj_tail in E as [-> ->].
        assert (Hx : x ∈ seen).
        { apply Hel. rewrite elem_of_app, elem_of_cons. auto. }
        apply list_elem_of_split in Hx as (k1 & k2 & ->).
        exists k1, (k2 ++ [y]). split; [by rewrite <- app_assoc|].
        intros Hy. apply Hout, Hel. apply elem_of_app. by left.
      * replace (l1 ++ x :: l2 ++ y :: l3' ++ [u])
          with ((l1 ++ x :: l2 ++ y :: l3') ++ [u]) in E
          by (rewrite <- !app_assoc; simpl; rewrite <- app_assoc; done).
        apply app_inj_tail in E as [-> ->].
        apply first_before_snoc. eauto.
Qed.

Lemma set_inv_foldl xs : ∀ seen s,
  set_inv seen s → set_inv (seen ++ xs) (foldl Set_add s xs).
Proof.
  induction xs as [|x xs IH]; intros seen s Hinv; simpl.
  - by rewrite app_nil_r.
  - replace (seen ++ x :: xs) with ((seen ++ [x]) ++ xs)
      by (rewrite <- app_assoc; done).
    apply IH. by apply set_inv_step.
Qed.

Lemma set_inv_Set_of xs : set_inv xs (Set_of xs).
Proof.
  apply (set_inv_foldl xs [] []). split.
  - constructor.
  - done.
  - intros l1 x l2 y l3 E. by destruct l1.
Qed.

End SetOf.

(** Every match of [linkRegex] defines [match[1]]: the loop never reads
    [startsWith] of [undefined]. *)
Lemma hrefs_defined html : Forall is_Some (hrefs html).
Proof. by apply RegexFacts.exec_all_defined. Qed.

Section Extraction.
Context {UA : UrlApi}.

(** A skipped [href] pushes nothing. *)
Lemma visit_skipped baseUrl href :
  skipped href = true → visit baseUrl href = Return None.
Proof. intros Hs. unfold visit. by rewrite Hs. Qed.

(** What a push tells about the [href] it comes from. *)
Lemma visit_pushed baseUrl href u :
  visit baseUrl href = Return (Some u) →
  skipped href = false ∧ absolute href baseUrl = Return u ∧
  ∃ base linkObj, URL_parse baseUrl = Some base ∧ URL_parse u = Some linkObj ∧
                  host linkObj = host base.
Proof.
  unfold visit. destruct (skipped href); [done|].
  destruct (absolute href baseUrl) as [a|e]; [|done]. simpl.
  unfold new_URL.
  destruct (URL_parse baseUrl) as [base|]; [|done]. simpl.
  destruct (URL_parse a) as [linkObj|] eqn:Ha; [|done]. simpl.
  destruct (String.eqb (host base) (host linkObj)) eqn:E; [|done].
  intros [= ->]. apply String.eqb_eq in E.
  split; [done|]. split; [done|]. exists base, linkObj. by rewrite Ha.
Qed.

Lemma visit_pushed_iff baseUrl href u base :
  URL_parse baseUrl = Some base →
  skipped href = false →
  absolute href baseUrl = Return u →
  host <$> URL_parse u = Some (host base) →
  visit baseUrl href = Return (Some u).
Proof.
  intros Hb Hs Ha Hu. unfold visit. rewrite Hs, Ha. simpl.
  unfold new_URL. rewrite Hb. simpl.
  destruct (URL_parse u) as [linkObj|]; [|done]. simpl in *.
  injection Hu as ->. by rewrite String.eqb_refl.
Qed.

Lemma collect_Return baseUrl ms : ∀ acc links,
  collect baseUrl ms acc = Return links →
  ∃ ps, pushes_of baseUrl ms ps ∧ links = acc ++ omap id ps.
Proof.
  induction ms as [|[href|] ms IH]; intros acc links; simpl.
  - intros [= <-]. exists []. split; [constructor|]. by rewrite app_nil_r.
  - destruct (visit baseUrl href) as [p|e] eqn:Hv; [|done]. simpl.
    intros (ps & Hps & ->)%IH. exists (p :: ps). split.
    + constructor; eauto.
    + destruct p; simpl; [|done]. by rewrite <- app_assoc.
  - done.
Qed.

Lemma pushes_elem baseUrl ms ps u :
  pushes_of baseUrl ms ps →
  u ∈ omap id ps ↔ ∃ href, Some href ∈ ms ∧ visit baseUrl href = Return (Some u).
Proof.
  induction 1 as [|m p ms ps (href & -> & Hv) _ IH]; simpl.
  - split; [by intros ?%elem_of_nil|]. by intros (? & ?%elem_of_nil & _).
  - assert (Hhead : u ∈ omap id (p :: ps) ↔ p = Some u ∨ u ∈ omap id ps).
    { simpl. destruct p as [v|]; simpl.
      - rewrite elem_of_cons. split; intros [?|?]; simplify_eq; auto.
      - split; [auto|]. by intros [?|?]. }
    rewrite Hhead, IH. split.
    + intros [-> | (h & Hin & Hh)].
      * exists href. split; [left|done].
      * exists h. split; [by right|done].
    + intros (h & Hin & Hh). apply elem_of_cons in Hin as [[= ->]|Hin].
      * left. congruence.
      * right. eauto.
Qed.

(** An occurrence among the pushes comes from a match at the same place. *)
Lemma pushes_split baseUrl ms ps k1 x k2 :
  pushes_of baseUrl ms ps →
  omap id ps = k1 ++ x :: k2 →
  ∃ h1 href h2 p1,
    ms = h1 ++ Some href :: h2 ∧ visit baseUrl href = Return (Some x) ∧
    pushes_of baseUrl h1 p1 ∧ omap id p1 = k1.
Proof.
  intros Hps. revert k1. induction Hps as [|m p ms ps (href & -> & Hv) Hps IH];
    intros k1; simpl.
  - by destruct k1.
  - destruct p as [v|]; simpl.
    + destruct k1 as [|v' k1]; simpl; intros [= -> E].
      * exists [], href, ms, []. repeat split; try done. constructor.
      * destruct (IH _ E) as (h1 & h & h2 & p1 & -> & Hh & Hp1 & <-).
        exists (Some href :: h1), h, h2, (Some v' :: p1).
        repeat split; try done. constructor; eauto.
    + intros E. destruct (IH _ E) as (h1 & h & h2 & p1 & -> & Hh & Hp1 & <-).
      exists (Some href :: h1), h, h2, (None :: p1).
      repeat split; try done. constructor; eauto.
Qed.

Lemma extractLinks_Return html baseUrl links :
  extractLinks html baseUrl = Return links →
  ∃ ps, pushes_of baseUrl (hrefs html) ps ∧ links = Set_of (omap id ps).
Proof.
  unfold extractLinks.
  destruct (collect baseUrl (hrefs html) []) as [ls|e] eqn:Hc; [|done]. simpl.
  intros [= <-]. apply collect_Return in Hc as (ps & Hps & ->). eauto.
Qed.

(** The result holds exactly the URLs that some match pushes. *)
Lemma extractLinks_elem html baseUrl links u :
  extractLinks html baseUrl = Return links →
  u ∈ links ↔
  ∃ href, Some href ∈ hrefs html ∧ visit baseUrl href = Return (Some u).
Proof.
  intros (ps & Hps & ->)%extractLinks_Return.
  rewrite (inv_elem _ _ (set_inv_Set_of _)). by apply pushes_elem.
Qed.

(** C5. The links that [extractLinks] returns are exactly the URLs that
    come from an [href] of the page that is neither fragment-only nor a
    [javascript:], [mailto:] or [tel:] target, and that parse to a URL whose
    host is the host of the base URL: no link comes from a skipped [href],
    and none has another host. *)
Theorem extractLinks_same_host_no_skipped html baseUrl links u :
  extractLinks html baseUrl = Return links →
  u ∈ links ↔
  ∃ href base linkObj,
    Some href ∈ hrefs html ∧
    Str.startsWith href "#" = false ∧
    Str.startsWith href "javascript:" = false ∧
    Str.startsWith href "mailto:" = false ∧
    Str.startsWith href "tel:" = false ∧
    absolute href baseUrl = Return u ∧
    URL_parse baseUrl = Some base ∧ URL_parse u = Some linkObj ∧
    host linkObj = host base.
Proof.
  intros Hx. rewrite (extractLinks_elem _ _ _ _ Hx). split.
  - intros (href & Hin & Hv).
    apply visit_pushed in Hv as (Hs & Ha & base & linkObj & Hb & Hl & Hh).
    unfold skipped in Hs. repeat apply orb_false_elim in Hs as [Hs ?].
    exists href, base, linkObj. repeat split; done.
  - intros (href & base & linkObj & Hin & H1 & H2 & H3 & H4 & Ha & Hb & Hl & Hh).
    exists href. split; [done|].
    apply (visit_pushed_iff _ _ _ base); try done.
    + unfold skipped. by rewrite H1, H2, H3, H4.
    + rewrite Hl. cbn. by rewrite Hh.
Qed.

(** C6. The links that [extractLinks] returns are pairwise distinct, they
    are exactly the URLs that some [href] of the page pushes, and they come
    in the order of their first occurrence: when [x] stands before [y] in
    the result, some anchor pushing [x] has no anchor pushing [y] before it
    in the page. *)
Theorem extractLinks_dedup_first_occurrence html baseUrl links :
  extractLinks html baseUrl = Return links →
  NoDup links ∧
  (∀ u, u ∈ links ↔
        ∃ href, Some href ∈ hrefs html ∧ visit baseUrl href = Return (Some u)) ∧
  (∀ l1 x l2 y l3, links = l1 ++ x :: l2 ++ y :: l3 →
     ∃ h1 href h2,
       hrefs html = h1 ++ Some href :: h2 ∧
       visit baseUrl href = Return (Some x) ∧
       ∀ href', Some href' ∈ h1 → visit baseUrl href' ≠ Return (Some y)).
Proof.
  intros (ps & Hps & ->)%extractLinks_Return.
  destruct (set_inv_Set_of (omap id ps)) as [Hnd Hel Hord].
  split; [done|]. split.
  - intros u. rewrite Hel. by apply pushes_elem.
  - intros l1 x l2 y l3 E.
    destruct (Hord _ _ _ _ _ E) as (k1 & k2 & Hk & Hy).
    destruct (pushes_split _ _ _ _ _ _ Hps Hk)
      as (h1 & href & h2 & p1 & Hms & Hv & Hp1 & <-).
    exists h1, href, h2. repeat split; try done.
    intros href' Hin Hv'. apply Hy.
    apply (pushes_elem _ _ _ _ Hp1). eauto.
Qed.

(** C9. An [href] that begins with two slashes is not taken as an absolute
    URL: it is appended to the scheme and the host of the base URL.  When
    that string parses to the host of the base URL, as the platform's
    parser has it because the authority ends at the first slash, the link
    is returned. *)
Theorem protocol_relative_href_retained html baseUrl links href base :
  extractLinks html baseUrl = Return links →
  Some href ∈ hrefs html →
  Str.startsWith href "//" = true →
  URL_parse baseUrl = Some base →
  host <$> URL_parse (protocol base +:+ "//" +:+ host base +:+ href)
    = Some (host base) →
  absolute href baseUrl
    = Return (protocol base +:+ "//" +:+ host base +:+ href) ∧
  (protocol base +:+ "//" +:+ host base +:+ href) ∈ links.
Proof.
  intros Hx Hin Hpre Hb Hhost.
  assert (Hs : skipped href = false ∧
               absolute href baseUrl
               = Return (protocol base +:+ "//" +:+ host base +:+ href)).
  { destruct (startsWith_inv _ _ Hpre) as (r & ->).
    unfold absolute, new_URL. rewrite Hb. by split. }
  destruct Hs as [Hs Habs]. split; [done|].
  apply (extractLinks_elem _ _ _ _ Hx).
  exists href. split; [done|].
  by apply (visit_pushed_iff _ _ _ base).
Qed.

End Extraction.
End LinkExtractorFacts.

(** The properties of the link extractor, on a page of the reference
    platform. *)
Module LinkExtractorExamples.
Import LinkExtractor LinkExtractorFacts Demo.

Example extractLinks_page : extractLinks page base_url = Return page_links.
Proof. vm_compute. reflexivity. Qed.

(** The same [href] twice in the page gives one link. *)
Example extractLinks_twice :
  extractLinks (anchor "/guide" +:+ anchor "/guide") base_url
  = Return ["https://docs.example.org/guide"].
Proof. vm_compute. reflexivity. Qed.

Lemma extractLinks_same_host_no_skipped_witness :
  extractLinks page base_url = Return page_links ∧
  ("https://docs.example.org/guide" ∈ page_links ↔
   ∃ href base linkObj,
     Some href ∈ hrefs page ∧
     Str.startsWith href "#" = false ∧
     Str.startsWith href "javascript:" = false ∧
     Str.startsWith href "mailto:" = false ∧
     Str.startsWith href "tel:" = false ∧
     absolute href base_url = Return "https://docs.example.org/guide" ∧
     URL_parse base_url = Some base ∧
     URL_parse "https://docs.example.org/guide" = Some linkObj ∧
     host linkObj = host base).
Proof.
  split; [vm_compute; reflexivity|].
  apply (extractLinks_same_host_no_skipped page base_url page_links).
  vm_compute. reflexivity.
Defined.

Lemma extractLinks_dedup_first_occurrence_witness :
  extractLinks page base_url = Return page_links ∧
  NoDup page_links ∧
  (∀ u, u ∈ page_links ↔
        ∃ href, Some href ∈ hrefs page ∧ visit base_url href = Return (Some u)) ∧
  (∀ l1 x l2 y l3, page_links = l1 ++ x :: l2 ++ y :: l3 →
     ∃ h1 href h2,
       hrefs page = h1 ++ Some href :: h2 ∧
       visit base_url href = Return (Some x) ∧
       ∀ href', Some href' ∈ h1 → visit base_url href' ≠ Return (Some y)).
Proof.
  split; [vm_compute; reflexivity|].
  apply (extractLinks_dedup_first_occurrence page base_url page_links).
  vm_compute. reflexivity.
Defined.

Lemma protocol_relative_href_retained_witness :
  Str.startsWith "//cdn.example.net/lib.js" "//" = true ∧
  absolute "//cdn.example.net/lib.js" base_url
    = Return "https://docs.example.org//cdn.example.net/lib.js" ∧
  "https://docs.example.org//cdn.example.net/lib.js" ∈ page_links.
Proof.
  split; [reflexivity|].
  apply (protocol_relative_href_retained page base_url page_links
           "//cdn.example.net/lib.js"
           (mkURL "https:" "docs.example.org" "docs.example.org" "" "/" "")).
  - vm_compute. reflexivity.
  - apply (bool_decide_unpack _). vm_compute. exact I.
  - reflexivity.
  - vm_compute. reflexivity.
  - vm_compute. reflexivity.
Defined.

End LinkExtractorExamples.

(** ** Retry scheduler *)

Section AsyncFacts.
Context {PF : Platform}.

Lemma bind_run {A B} (m : Async A) (f : A → Async B) (w : Env) :
  (m ≫= f) w =
  match outcome (m w) with
  | Return a => after (trace (m w)) (f a (final (m w)))
  | Throw e => mkRun (Throw e) (final (m w)) (trace (m w))
  end.
Proof. reflexivity. Qed.

Lemma try_catch_run {A} (body : Async A) (handler : JsError → Async A) (w : Env) :
  try_catch body handler w =
  match outcome (body w) with
  | Return a => body w
  | Throw e => after (trace (body w)) (handler e (final (body w)))
  end.
Proof. reflexivity. Qed.

Lemma after_after {E A} (t1 t2 : list event) (r : Run E A) :
  after t1 (after t2 r) = after (t1 ++ t2) r.
Proof. unfold after. simpl. by rewrite app_assoc. Qed.

Lemma after_nil {E A} (r : Run E A) : after [] r = r.
Proof. by destruct r. Qed.

End AsyncFacts.

Section SchedulerFacts.
Context {PF : Platform}.
Variables (testName : string) (testFn : Async unit) (retries startTime : Z).

(** One iteration of the loop, by the outcome of the invocation. *)
Lemma attempt_loop_cons a idx lastError w :
  attempt_loop testName testFn retries startTime (a :: idx) lastError w =
  let r := testFn (entered a w) in
  match outcome r with
  | Return _ =>
      mkRun (Return {| name := testName; status := passed;
                       duration := Date_now (final r) - startTime;
                       attempts := a + 1; error := None |})
            (final r) (schedule_step a ++ trace r)
  | Throw e =>
      after (schedule_step a ++ trace r)
        (attempt_loop testName testFn retries startTime idx (Some e) (final r))
  end.
Proof.
  cbn [attempt_loop]. rewrite try_catch_run.
  unfold schedule_step, backoff_delay, entered.
  destruct (0 <? a);
    unfold mbind, async_bind, mret, async_ret, sleep, emit, now, after; cbn;
    destruct (outcome (testFn _)) eqn:E; cbn; rewrite ?E; cbn;
    rewrite ?app_nil_r; try reflexivity.
Qed.

(** The code after the loop. *)
Lemma attempt_loop_nil lastError w :
  attempt_loop testName testFn retries startTime [] lastError w =
  match lastError with
  | Some e =>
      mkRun (Return {| name := testName; status := failed;
                       duration := Date_now w - startTime;
                       attempts := retries + 1; error := Some (message e) |})
            w []
  | None =>
      mkRun (Throw (mkError "Cannot read properties of null (reading 'message')"))
            w []
  end.
Proof. by destruct lastError. Qed.

Lemma entered_env_at w (i : nat) wp :
  wp = match i with O => w | S j => final (testFn (env_at testFn w j)) end →
  entered (Z.of_nat i) wp = env_at testFn w i.
Proof.
  intros ->. unfold entered. destruct i as [|j]; [done|].
  replace (0 <? Z.of_nat (S j)) with true by (symmetry; apply Z.ltb_lt; lia).
  reflexivity.
Qed.

(** The loop from iteration [i] on, when the invocation of iteration [k]
    is the first that returns. *)
Lemma attempt_loop_first_success w (k : nat) : ∀ (m i : nat) lastError wp,
  entered (Z.of_nat i) wp = env_at testFn w i →
  (i ≤ k < i + m)%nat →
  (∀ j, (i ≤ j < k)%nat → ∃ e, outcome (testFn (env_at testFn w j)) = Throw e) →
  outcome (testFn (env_at testFn w k)) = Return tt →
  let r := attempt_loop testName testFn retries startTime
             (seqZ (Z.of_nat i) (Z.of_nat m)) lastError wp in
  outcome r
    = Return {| name := testName; status := passed;
                duration := Date_now (final (testFn (env_at testFn w k))) - startTime;
                attempts := Z.of_nat k + 1; error := None |} ∧
  final r = final (testFn (env_at testFn w k)).
Proof.
  induction m as [|m IH]; intros i lastError wp Hent Hk Hfail Hok; [lia|].
  rewrite seqZ_cons by lia. cbv zeta. rewrite attempt_loop_cons. cbv zeta.
  rewrite Hent.
  destruct (decide (i = k)) as [->|Hne].
  - rewrite Hok. cbn. done.
  - destruct (Hfail i) as [e He]; [lia|]. rewrite He. cbn.
    replace (Z.succ (Z.of_nat i)) with (Z.of_nat (S i)) by lia.
    replace (Z.pred (Z.of_nat (S m))) with (Z.of_nat m) by lia.
    apply IH; [by apply entered_env_at | lia | | done].
    intros j Hj. apply Hfail. lia.
Qed.

(** The loop from iteration [i] on, when every invocation throws. *)
Lemma attempt_loop_all_fail w (errs : nat → JsError) : ∀ (m i : nat) lastError wp,
  entered (Z.of_nat i) wp = env_at testFn w i →
  (∀ j, (i ≤ j < i + m)%nat → outcome (testFn (env_at testFn w j)) = Throw (errs j)) →
  ∃ w',
    attempt_loop testName testFn retries startTime
      (seqZ (Z.of_nat i) (Z.of_nat m)) lastError wp
    = after (trace (attempt_loop testName testFn retries startTime
                      (seqZ (Z.of_nat i) (Z.of_nat m)) lastError wp))
        (attempt_loop testName testFn retries startTime []
           (match m with O => lastError | S m' => Some (errs (i + m')%nat) end) w').
Proof.
  induction m as [|m IH]; intros i lastError wp Hent Hfail.
  - exists wp. rewrite seqZ_nil by lia. rewrite attempt_loop_nil.
    destruct lastError; unfold after; cbn; done.
  - rewrite seqZ_cons by lia. rewrite attempt_loop_cons. cbv zeta.
    rewrite Hent, (Hfail i) by lia.
    replace (Z.succ (Z.of_nat i)) with (Z.of_nat (S i)) by lia.
    replace (Z.pred (Z.of_nat (S m))) with (Z.of_nat m) by lia.
    destruct (IH (S i) (Some (errs i)) (final (testFn (env_at testFn w i))))
      as (w' & Hw').
    + by apply entered_env_at.
    + intros j Hj. apply Hfail. lia.
    + exists w'. rewrite Hw' at 1.
      replace (match m with O => Some (errs i) | S m' => Some (errs (S i + m')%nat) end)
        with (Some (errs (i + m)%nat)).
      2:{ destruct m; f_equal; f_equal; lia. }
      rewrite after_after. unfold after at 2. cbn [trace].
      rewrite attempt_loop_nil. unfold after. cbn. by rewrite app_nil_r.
Qed.





(** What a result of the loop looks like. *)
Lemma attempt_loop_result : ∀ idx lastError wp p,
  Forall (λ a, 0 ≤ a ≤ retries) idx →
  (is_Some lastError → 0 ≤ retries) →
  outcome (attempt_loop testName testFn retries startTime idx lastError wp)
    = Return p →
  name p = testName ∧ 1 ≤ attempts p ≤ retries + 1 ∧
  (is_Some (error p) ↔ status p = failed).
Proof.
  induction idx as [|a idx IH]; intros lastError wp p Hidx Hlast.
  - rewrite attempt_loop_nil. destruct lastError as [e|]; [|done].
    intros [= <-]. cbn. split; [done|]. split; [|by split; eauto].
    assert (0 ≤ retries) by eauto. lia.
  - apply Forall_cons in Hidx as [Ha Hidx].
    rewrite attempt_loop_cons. cbv zeta.
    destruct (outcome (testFn (entered a wp))) as [[]|e]; cbn.
    + intros [= <-]. cbn. split; [done|]. split; [lia|].
      split; [by intros [? ?]|done].
    + apply IH; [done|]. intros _. lia.
Qed.

(** The loop returns a result as soon as one invocation is made. *)
Lemma attempt_loop_total : ∀ idx lastError wp,
  idx ≠ [] ∨ is_Some lastError →
  ∃ p, outcome (attempt_loop testName testFn retries startTime idx lastError wp)
       = Return p.
Proof.
  induction idx as [|a idx IH]; intros lastError wp Hne.
  - rewrite attempt_loop_nil. destruct Hne as [?|[e ->]]; [done|]. eauto.
  - rewrite attempt_loop_cons. cbv zeta.
    destruct (outcome (testFn (entered a wp))) as [[]|e]; cbn; [eauto|].
    apply IH. right. eauto.
Qed.

End SchedulerFacts.

Section ExecuteTest.
Context {PF : Platform}.

Lemma executeTest_run testName testFn retries w :
  executeTest testName testFn retries w =
  attempt_loop testName testFn retries (Date_now w) (seqZ 0 (retries + 1)) None w.
Proof.
  unfold executeTest. rewrite bind_run. cbn. apply after_nil.
Qed.

(** With a non-negative number of retries, [executeTest] returns a result. *)
Lemma executeTest_total testName testFn retries w :
  0 ≤ retries → ∃ p, outcome (executeTest testName testFn retries w) = Return p.
Proof.
  intros Hr. rewrite executeTest_run. apply attempt_loop_total. left.
  rewrite seqZ_cons by lia. done.
Qed.

Lemma executeTest_result testName testFn retries w p :
  outcome (executeTest testName testFn retries w) = Return p →
  name p = testName ∧ 1 ≤ attempts p ≤ retries + 1 ∧
  (is_Some (error p) ↔ status p = failed).
Proof.
  rewrite executeTest_run. apply attempt_loop_result.
  - apply Forall_seqZ. intros a Ha. lia.
  - by intros [? ?].
Qed.

(** With a negative number of retries no invocation is made, and reading
    [lastError.message] throws. *)
Lemma executeTest_negative testName testFn retries w :
  retries < 0 →
  executeTest testName testFn retries w
  = mkRun (Throw (mkError "Cannot read properties of null (reading 'message')")) w [].
Proof.
  intros Hr. rewrite executeTest_run, seqZ_nil by lia. by rewrite attempt_loop_nil.
Qed.

(** C2. When every one of the [retries + 1] invocations throws,
    [executeTest] returns a failed result that counts [retries + 1] attempts
    and carries the message of the error thrown last. *)
Theorem executeTest_exhausted testName testFn retries w (errs : nat → JsError) :
  0 ≤ retries →
  (∀ j, (j ≤ Z.to_nat retries)%nat →
        outcome (testFn (env_at testFn w j)) = Throw (errs j)) →
  ∃ d, outcome (executeTest testName testFn retries w)
       = Return {| name := testName; status := failed; duration := d;
                   attempts := retries + 1;
                   error := Some (message (errs (Z.to_nat retries))) |}.
Proof.
  intros Hr Hfail. rewrite executeTest_run.
  destruct (attempt_loop_all_fail testName testFn retries (Date_now w) w errs
              (S (Z.to_nat retries)) O None w) as (w' & Hw').
  - reflexivity.
  - intros j Hj. apply Hfail. lia.
  - replace (Z.of_nat (S (Z.to_nat retries))) with (retries + 1) in Hw' by lia.
    change (Z.of_nat 0) with 0 in Hw'. rewrite Hw'.
    rewrite attempt_loop_nil. cbn. eauto.
Qed.

(** C3. When invocation number [k] is the first that returns, with
    [1 <= k <= retries + 1], [executeTest] returns a passed result that
    counts [k] attempts, and it leaves the world as that invocation left
    it: nothing is done after it. *)
Theorem executeTest_first_success testName testFn retries w (k : nat) :
  (1 ≤ k)%nat →
  Z.of_nat k ≤ retries + 1 →
  (∀ j, (S j < k)%nat → ∃ e, outcome (testFn (env_at testFn w j)) = Throw e) →
  outcome (testFn (env_at testFn w (k - 1))) = Return tt →
  let r := executeTest testName testFn retries w in
  (∃ d, outcome r = Return {| name := testName; status := passed; duration := d;
                              attempts := Z.of_nat k; error := None |}) ∧
  final r = final (testFn (env_at testFn w (k - 1))).
Proof.
  intros Hk1 Hk2 Hfail Hok. cbv zeta. rewrite executeTest_run.
  destruct (attempt_loop_first_success testName testFn retries (Date_now w) w
              (k - 1) (Z.to_nat (retries + 1)) O None w) as [Hout Hfin].
  - reflexivity.
  - lia.
  - intros j Hj. apply Hfail. lia.
  - done.
  - rewrite Z2Nat.id in Hout, Hfin by lia. change (Z.of_nat 0) with 0 in *.
    rewrite Hout, Hfin. split; [|done].
    replace (Z.of_nat (k - 1) + 1) with (Z.of_nat k) by lia. eauto.
Qed.




End ExecuteTest.

(** ** Probe suite *)

Section ProbeFacts.
Context {UA : UrlApi} {PF : Platform} {PE : ProcessEnv}.

Lemma requests_cons url t : requests (EvRequest url :: t) = url :: requests t.
Proof. reflexivity. Qed.

Lemma requests_app t1 t2 : requests (t1 ++ t2) = requests t1 ++ requests t2.
Proof. apply omap_app. Qed.

(** [makeRequest] sends one request when the URL parses, and none
    otherwise. *)
Lemma makeRequest_run url w :
  makeRequest url w =
  match URL_parse url with
  | None => mkRun (Throw (mkError "Invalid URL")) w []
  | Some urlObj =>
      let o := {| opt_https := String.eqb (protocol urlObj) "https:";
                  opt_hostname := hostname urlObj;
                  opt_port := port urlObj;
                  opt_path := pathname urlObj +:+ search urlObj;
                  opt_method := "GET";
                  opt_timeout := TIMEOUT |} in
      mkRun (fst (http_exchange o w)) (snd (http_exchange o w)) [EvRequest url]
  end.
Proof.
  unfold makeRequest. destruct (URL_parse url) as [urlObj|]; [|done].
  cbv zeta. rewrite bind_run. unfold emit, exchange, after. cbn.
  by destruct (http_exchange _ w).
Qed.

Lemma makeRequest_trace url w :
  trace (makeRequest url w)
  = match URL_parse url with Some _ => [EvRequest url] | None => [] end.
Proof. rewrite makeRequest_run. by destruct (URL_parse url). Qed.

Lemma makeRequest_Return url w response :
  outcome (makeRequest url w) = Return response → is_Some (URL_parse url).
Proof. rewrite makeRequest_run. by destruct (URL_parse url). Qed.

(** C10. A homepage response without a [content-type] header makes the
    homepage probe throw; the probe returns exactly when the request
    resolves with status 200, a [content-type] header that contains
    [text/html], and a body that is not empty. *)
Theorem testHomepageLoads_passes_iff w :
  (∀ response,
     outcome (makeRequest SITE_URL w) = Return response →
     headers response !! "content-type" = None →
     ∃ e, outcome (testHomepageLoads w) = Throw e) ∧
  (outcome (testHomepageLoads w) = Return tt ↔
   ∃ response,
     outcome (makeRequest SITE_URL w) = Return response ∧
     statusCode response = 200 ∧
     (∃ contentType, headers response !! "content-type" = Some contentType ∧
                     Str.includes contentType "text/html" = true) ∧
     body response ≠ EmptyString).
Proof.
  unfold testHomepageLoads. rewrite bind_run.
  destruct (outcome (makeRequest SITE_URL w)) as [response|e0] eqn:Hreq.
  2:{ split; [done|]. split; [done|]. by intros (? & ? & _). }
  unfold after, throw, mret, async_ret. cbn [outcome].
  destruct (Z.eqb_spec (statusCode response) 200) as [Hst|Hst]; cbn [negb].
  2:{ split; [eauto|]. split; [done|]. intros (r & [= <-] & ? & _). done. }
  destruct (headers response !! "content-type") as [ct|] eqn:Hct;
    unfold default; cbn [from_option id].
  2:{ split; [intros; cbn; eauto|]. split; [done|].
      intros (r & [= <-] & _ & (ct & Hct' & _) & _). congruence. }
  split; [intros r [= <-] ?; congruence|].
  destruct (Str.includes ct "text/html") eqn:Hinc; cbn [negb outcome].
  2:{ split; [done|]. intros (r & [= <-] & _ & (ct' & Hct' & Hinc') & _).
      congruence. }
  destruct (body response) as [|c b] eqn:Hbody; cbn.
  - split; [done|]. intros (r & [= <-] & _ & _ & Hb). congruence.
  - split; [|done]. intros _. exists response.
    rewrite Hbody. split; [done|]. split; [done|]. split; [|done]. eauto.
Qed.

(** One iteration never throws, and sends one request when the link
    parses. *)
Lemma check_link_run link brokenLinks w :
  is_Some (URL_parse link) →
  (∃ bs, outcome (check_link link brokenLinks w) = Return bs) ∧
  trace (check_link link brokenLinks w) = [EvRequest link].
Proof.
  intros [urlObj Hlink]. unfold check_link.
  rewrite try_catch_run, bind_run.
  pose proof (makeRequest_trace link w) as Htr. rewrite Hlink in Htr.
  destruct (outcome (makeRequest link w)) as [linkResponse|error].
  - destruct (400 <=? statusCode linkResponse);
      unfold after, mret, async_ret; cbn; rewrite Htr; eauto.
  - unfold after, mret, async_ret; cbn; rewrite Htr; eauto.
Qed.

(** The loop over the links never throws and requests every link that
    parses, in order. *)
Lemma check_links_run : ∀ linksToCheck brokenLinks w,
  Forall (λ link, is_Some (URL_parse link)) linksToCheck →
  (∃ bs, outcome (check_links linksToCheck brokenLinks w) = Return bs) ∧
  requests (trace (check_links linksToCheck brokenLinks w)) = linksToCheck.
Proof.
  induction linksToCheck as [|link rest IH]; intros brokenLinks w Hparse.
  - cbn. eauto.
  - apply Forall_cons in Hparse as [Hlink Hrest].
    cbn [check_links]. rewrite bind_run.
    destruct (check_link_run link brokenLinks w Hlink) as [[bs Hbs] Htr].
    rewrite Hbs, Htr. unfold after. cbn [outcome trace app].
    destruct (IH bs (final (check_link link brokenLinks w)) Hrest) as [Hout Hreqs].
    split; [exact Hout|]. by rewrite requests_cons, Hreqs.
Qed.

(** Every link that [extractLinks] returns parses as a URL. *)
Lemma extractLinks_parse html baseUrl links :
  LinkExtractor.extractLinks html baseUrl = Return links →
  Forall (λ link, is_Some (URL_parse link)) links.
Proof.
  intros Hx. apply Forall_forall. intros u Hu.
  apply (LinkExtractorFacts.extractLinks_elem _ _ _ _ Hx) in Hu as (href & _ & Hv).
  apply LinkExtractorFacts.visit_pushed in Hv as (_ & _ & _ & linkObj & _ & -> & _).
  eauto.
Qed.

Lemma extractLinks_NoDup html baseUrl links :
  LinkExtractor.extractLinks html baseUrl = Return links → NoDup links.
Proof.
  intros (ps & _ & ->)%LinkExtractorFacts.extractLinks_Return.
  apply (LinkExtractor.inv_nodup _ _ (LinkExtractorFacts.set_inv_Set_of _)).
Qed.

(** C7. Once the homepage is fetched with status 200, the link probe
    requests the first 20 extracted links, in order, and nothing else: with
    more than 20 links that is 20 requests and none for a link from the 21st
    on, with 20 links or fewer it is all of them. *)
Theorem testNoBrokenLinks_checks_first_20 w response links :
  outcome (makeRequest SITE_URL w) = Return response →
  statusCode response = 200 →
  LinkExtractor.extractLinks (body response) SITE_URL = Return links →
  requests (trace (testNoBrokenLinks w)) = SITE_URL :: take 20 links ∧
  ((20 < length links)%nat →
     length (take 20 links) = 20%nat ∧
     ∀ i link, (20 ≤ i)%nat → links !! i = Some link → link ∉ take 20 links) ∧
  ((length links ≤ 20)%nat → take 20 links = links).
Proof.
  intros Hreq Hst Hx. split; [|split].
  - unfold testNoBrokenLinks. rewrite bind_run, Hreq, Hst.
    pose proof (makeRequest_trace SITE_URL w) as Htr.
    destruct (makeRequest_Return _ _ _ Hreq) as [urlObj Hu]. rewrite Hu in Htr.
    cbn [Z.eqb Pos.eqb negb]. rewrite bind_run. unfold sync at 1 2 3.
    rewrite Hx. cbn [outcome final trace]. rewrite bind_run.
    assert (Hparse : Forall (λ link, is_Some (URL_parse link)) (take 20 links)).
    { apply Forall_take. by eapply extractLinks_parse. }
    destruct (check_links_run (take 20 links) [] (final (makeRequest SITE_URL w)) Hparse)
      as [[bs Hbs] Hreqs].
    rewrite Hbs.
    destruct (0 <? length bs)%nat;
      unfold after, throw, mret, async_ret; cbn [outcome final trace];
      rewrite Htr, !app_nil_r; cbn [app];
      by rewrite requests_cons, Hreqs.
  - intros Hlen. split; [rewrite length_take; lia|].
    intros i link Hi Hlink (j & Hj & Hj20)%elem_of_take.
    pose proof (extractLinks_NoDup _ _ _ Hx) as Hnd.
    assert (i = j) by (eapply NoDup_lookup; eauto). lia.
  - intros Hlen. by apply take_ge.
Qed.

(** *** The probes only send requests *)

Lemma quiet_ret {A} (a : A) : quiet (mret a).
Proof. intros w. constructor. Qed.

Lemma quiet_throw {A} (e : JsError) : quiet (throw (A:=A) e).
Proof. intros w. constructor. Qed.

Lemma quiet_sync {A} (c : completion A) : quiet (sync c).
Proof. intros w. constructor. Qed.

Lemma quiet_bind {A B} (m : Async A) (f : A → Async B) :
  quiet m → (∀ a, quiet (f a)) → quiet (m ≫= f).
Proof.
  intros Hm Hf w. rewrite bind_run.
  destruct (outcome (m w)); cbn; [|apply Hm].
  apply Forall_app. split; [apply Hm|apply Hf].
Qed.

Lemma quiet_try_catch {A} (m : Async A) (h : JsError → Async A) :
  quiet m → (∀ e, quiet (h e)) → quiet (try_catch m h).
Proof.
  intros Hm Hh w. rewrite try_catch_run.
  destruct (outcome (m w)); cbn; [apply Hm|].
  apply Forall_app. split; [apply Hm|apply Hh].
Qed.

Lemma quiet_for_of {A} (xs : list A) (f : A → Async unit) :
  (∀ x, quiet (f x)) → quiet (for_of xs f).
Proof.
  intros Hf. induction xs as [|x xs IH]; cbn [for_of].
  - apply quiet_ret.
  - apply quiet_bind; [apply Hf|]. intros _. apply IH.
Qed.

Lemma quiet_makeRequest url : quiet (makeRequest url).
Proof.
  intros w. rewrite makeRequest_trace.
  destruct (URL_parse url); repeat constructor.
Qed.

Lemma quiet_check_links : ∀ linksToCheck brokenLinks,
  quiet (check_links linksToCheck brokenLinks).
Proof.
  induction linksToCheck as [|link rest IH]; intros brokenLinks; cbn [check_links].
  - apply quiet_ret.
  - apply quiet_bind; [|intros bs; apply IH].
    apply quiet_try_catch; [|intros e; apply quiet_ret].
    apply quiet_bind; [apply quiet_makeRequest|].
    intros r. destruct (400 <=? statusCode r); apply quiet_ret.
Qed.


Lemma quiet_testDocumentationPages : quiet testDocumentationPages.
Proof.
  apply quiet_for_of. intros page.
  apply quiet_bind; [apply quiet_makeRequest|]. intros r.
  case_match; [apply quiet_throw|apply quiet_ret].
Qed.

Lemma quiet_testSearchFunctionality : quiet testSearchFunctionality.
Proof.
  apply quiet_bind; [apply quiet_makeRequest|]. intros r.
  destruct (negb _); [apply quiet_throw|].
  destruct (Nat.eqb _ _); [apply quiet_throw|apply quiet_ret].
Qed.

Lemma quiet_testAssetsLoad : quiet testAssetsLoad.
Proof.
  apply quiet_for_of. intros asset.
  apply quiet_bind; [apply quiet_makeRequest|]. intros r.
  case_match; [apply quiet_throw|apply quiet_ret].
Qed.

Lemma quiet_testNoBrokenLinks : quiet testNoBrokenLinks.
Proof.
  apply quiet_bind; [apply quiet_makeRequest|]. intros r.
  case_match; [apply quiet_throw|].
  apply quiet_bind; [apply quiet_sync|]. intros links.
  apply quiet_bind; [apply quiet_check_links|]. intros bs.
  case_match; [apply quiet_throw|apply quiet_ret].
Qed.

End ProbeFacts.

(** ** Test runner *)

Section RunnerFacts.
Context {UA : UrlApi} {PF : Platform} {PE : ProcessEnv} {JA : JsonApi}.

Lemma count_status_snoc s ps p :
  count_status s (ps ++ [p])
  = count_status s ps + (if decide (status p = s) then 1 else 0).
Proof.
  unfold count_status. rewrite filter_app, length_app, filter_cons, filter_nil.
  destruct (decide (status p = s)); cbn [length]; lia.
Qed.

Lemma count_status_nonneg s ps : 0 ≤ count_status s ps.
Proof. unfold count_status. lia. Qed.

(** Recording a result keeps the invariants of the report. *)
Lemma record_ok maxRetries testResults result :
  report_ok maxRetries testResults → counters_ok testResults →
  result_ok maxRetries result →
  report_ok maxRetries (record testResults result) ∧
  counters_ok (record testResults result).
Proof.
  intros (Htot & Hsum & Hres) (Hp & Hf) Hr. unfold record, report_ok, counters_ok.
  destruct (status result) eqn:Hst; cbn [summary tests total passed_count failed_count];
    rewrite !count_status_snoc, Hst, length_app; cbn [length];
    repeat case_decide; try done;
    (split; [split; [lia|split; [lia|]]|split; lia]);
    intros p [Hin| ->%list_elem_of_singleton]%elem_of_app; auto.
Qed.

Lemma run_each_cons test probes' testResults w :
  run_each (test :: probes') testResults w =
  let r := executeTest (fst test) (snd test) MAX_RETRIES w in
  match outcome r with
  | Return result => after (trace r) (run_each probes' (record testResults result) (final r))
  | Throw e => mkRun (Throw e) (final r) (trace r)
  end.
Proof. cbn [run_each]. by rewrite bind_run. Qed.

Lemma run_each_ok : ∀ probes testResults w rep,
  report_ok MAX_RETRIES testResults → counters_ok testResults →
  outcome (run_each probes testResults w) = Return rep →
  report_ok MAX_RETRIES rep ∧ counters_ok rep.
Proof.
  induction probes as [|test probes' IH]; intros testResults w rep Hok Hcnt.
  - cbn [run_each]. unfold mret, async_ret. cbn. by intros [= <-].
  - rewrite run_each_cons. cbv zeta.
    destruct (outcome (executeTest _ _ _ w)) as [result|e] eqn:Hx; [|done].
    cbn [after outcome]. apply executeTest_result in Hx as (_ & Hatt & Herr).
    destruct (record_ok MAX_RETRIES testResults result Hok Hcnt) as [Hok' Hcnt'];
      [by split|].
    by apply IH.
Qed.

Lemma run_each_total : 0 ≤ MAX_RETRIES → ∀ probes testResults w,
  ∃ rep, outcome (run_each probes testResults w) = Return rep.
Proof.
  intros Hr. induction probes as [|test probes' IH]; intros testResults w.
  - cbn [run_each]. unfold mret, async_ret. cbn. eauto.
  - rewrite run_each_cons. cbv zeta.
    destruct (executeTest_total (fst test) (snd test) MAX_RETRIES w Hr) as [p Hp].
    rewrite Hp. cbn [after outcome]. apply IH.
Qed.

Lemma testResults_init_ok maxRetries :
  report_ok maxRetries testResults_init ∧ counters_ok testResults_init.
Proof.
  split; [|done]. split; [done|]. split; [done|]. by intros p ?%elem_of_nil.
Qed.

Lemma run_probes_run probes w :
  run_probes probes w =
  let r := run_each probes testResults_init w in
  match outcome r with
  | Return testResults =>
      mkRun (Return {| summary := mkSummary (total (summary testResults))
                                    (passed_count (summary testResults))
                                    (failed_count (summary testResults))
                                    (Date_now (final r) - Date_now w);
                       tests := tests testResults |})
            (final r) (trace r)
  | Throw e => mkRun (Throw e) (final r) (trace r)
  end.
Proof.
  unfold run_probes. rewrite bind_run.
  change (now w) with (mkRun (E:=Env) (Return (Date_now w)) w []).
  cbn [outcome final trace]. rewrite after_nil, bind_run. cbv zeta.
  destruct (outcome (run_each probes testResults_init w)); [|done].
  rewrite bind_run. unfold now, mret, async_ret, after. cbn.
  by rewrite app_nil_r.
Qed.

Lemma run_probes_ok probes w rep :
  outcome (run_probes probes w) = Return rep →
  report_ok MAX_RETRIES rep ∧ counters_ok rep.
Proof.
  rewrite run_probes_run. cbv zeta.
  destruct (outcome (run_each probes testResults_init w)) as [testResults|e] eqn:Hx;
    [|done].
  intros [= <-].
  destruct (testResults_init_ok MAX_RETRIES) as [Hok Hcnt].
  by apply (run_each_ok _ _ _ _ Hok Hcnt) in Hx.
Qed.

(** What [runTests] returns is the report of [run_probes], and the way it
    stops is decided by [summary.failed]. *)
Lemma runTests_on_Return probes w rep ending :
  outcome (runTests_on probes w) = Return (rep, ending) →
  outcome (run_probes probes w) = Return rep ∧
  ending = (if 0 <? failed_count (summary rep) then Exited 1 else Resolved).
Proof.
  unfold runTests_on. rewrite bind_run.
  destruct (outcome (run_probes probes w)) as [testResults|e]; [|done].
  cbn [after outcome]. rewrite bind_run.
  destruct (outcome (writeFileSync _ _ _)); [|done].
  cbn [after outcome]. rewrite bind_run.
  match goal with |- context [outcome (?m ?w')] =>
    destruct (outcome (m w')); [|done] end.
  cbn [after outcome].
  destruct (0 <? failed_count (summary testResults)) eqn:Hf;
    cbn; intros [= <- <-]; by rewrite Hf.
Qed.

(** C1. The probe phase of a run returns a report whenever the number of
    retries is not negative, and every report it returns, hence every
    report that [runTests] ends with, satisfies the invariants: [total] is
    the number of results, [passed] and [failed] add up to [total], every
    result counts between 1 and [MAX_RETRIES + 1] attempts, and a result has
    an [error] exactly when it is failed. *)
Theorem report_invariants probes w :
  (0 ≤ MAX_RETRIES → ∃ rep, outcome (run_probes probes w) = Return rep) ∧
  (∀ rep, outcome (run_probes probes w) = Return rep →
     total (summary rep) = Z.of_nat (length (tests rep)) ∧
     passed_count (summary rep) + failed_count (summary rep) = total (summary rep) ∧
     ∀ p, p ∈ tests rep →
       1 ≤ attempts p ≤ MAX_RETRIES + 1 ∧
       (is_Some (error p) ↔ status p = failed)) ∧
  (∀ rep ending, outcome (runTests_on probes w) = Return (rep, ending) →
     outcome (run_probes probes w) = Return rep).
Proof.
  split; [|split].
  - intros Hr. rewrite run_probes_run. cbv zeta.
    destruct (run_each_total Hr probes testResults_init w) as [rep ->]. eauto.
  - intros rep Hrep. apply run_probes_ok in Hrep as [Hok _]. exact Hok.
  - intros rep ending Hrun. by apply runTests_on_Return in Hrun as [? _].
Qed.

(** C8. When [runTests] settles without throwing, the exit status of the
    process is 0 exactly when [summary.failed] is 0, and it is 1 otherwise;
    with an empty list of probes it is 0. *)
Theorem exit_status_reflects_failures probes w rep ending :
  outcome (runTests_on probes w) = Return (rep, ending) →
  let code := exit_status (outcome (runTests_on probes w)) in
  (code = 0 ↔ failed_count (summary rep) = 0) ∧
  (failed_count (summary rep) ≠ 0 → code = 1) ∧
  (probes = [] → code = 0).
Proof.
  intros Hrun. cbv zeta. rewrite Hrun.
  apply runTests_on_Return in Hrun as [Hrep ->].
  pose proof (run_probes_ok _ _ _ Hrep) as [_ [_ Hf]].
  pose proof (count_status_nonneg failed (tests rep)) as Hnn.
  assert (Hempty : probes = [] → failed_count (summary rep) = 0).
  { intros ->. rewrite run_probes_run in Hrep. cbn in Hrep.
    by injection Hrep as <-. }
  destruct (Z.ltb_spec 0 (failed_count (summary rep))) as [Hpos|Hzero]; cbn.
  - split; [lia|]. split; [done|]. intros Hs. specialize (Hempty Hs). lia.
  - split; [split; [lia|done]|]. split; [lia|done].
Qed.

End RunnerFacts.

(** ** The properties on the reference platform *)

Module RunExamples.
Import Demo.

(** The scheduler's events of a probe that passes at its third attempt. *)
Example schedule_of_three_attempts :
  List.filter scheduler_event
    (trace (executeTest "Homepage loads" testHomepageLoads 2 world_late))
  = [EvCall 0; EvSleep 2000; EvCall 1; EvSleep 4000; EvCall 2].
Proof. vm_compute. reflexivity. Qed.

Lemma executeTest_exhausted_witness :
  0 ≤ 2 ∧
  (∀ j, (j ≤ Z.to_nat 2)%nat →
        outcome (testHomepageLoads (env_at testHomepageLoads world_down j))
        = Throw refused) ∧
  ∃ d, outcome (executeTest "Homepage loads" testHomepageLoads 2 world_down)
       = Return {| name := "Homepage loads"; status := failed; duration := d;
                   attempts := 2 + 1;
                   error := Some "connect ECONNREFUSED" |}.
Proof.
  assert (Hfail : ∀ j, (j ≤ Z.to_nat 2)%nat →
            outcome (testHomepageLoads (env_at testHomepageLoads world_down j))
            = Throw refused).
  { intros j Hj. destruct j as [|[|[|j]]]; [vm_compute; reflexivity..|].
    exfalso. revert Hj. vm_compute. lia. }
  split; [lia|]. split; [exact Hfail|].
  apply (executeTest_exhausted (PF:=platform) "Homepage loads" testHomepageLoads 2 world_down
           (λ _, refused)); [lia|exact Hfail].
Defined.

Lemma executeTest_first_success_witness :
  let r := executeTest "Homepage loads" testHomepageLoads 2 world_late in
  (∃ d, outcome r = Return {| name := "Homepage loads"; status := passed;
                              duration := d; attempts := Z.of_nat 3;
                              error := None |}) ∧
  final r = final (testHomepageLoads (env_at testHomepageLoads world_late (3 - 1))).
Proof.
  apply (executeTest_first_success (PF:=platform) "Homepage loads" testHomepageLoads 2 world_late 3).
  - lia.
  - vm_compute. discriminate.
  - intros j Hj. destruct j as [|[|j]]; [eexists; vm_compute; reflexivity..|lia].
  - vm_compute. reflexivity.
Defined.



Lemma testHomepageLoads_passes_iff_witness :
  outcome (makeRequest SITE_URL world_untyped) = Return (plain 200 "<html></html>") ∧
  headers (plain 200 "<html></html>") !! "content-type" = None ∧
  ∃ e, outcome (testHomepageLoads world_untyped) = Throw e.
Proof.
  assert (Hreq : outcome (makeRequest SITE_URL world_untyped)
                 = Return (plain 200 "<html></html>")) by (vm_compute; reflexivity).
  split; [exact Hreq|]. split; [reflexivity|].
  apply (proj1 (testHomepageLoads_passes_iff (PF:=platform) world_untyped) _ Hreq). reflexivity.
Defined.

Lemma testNoBrokenLinks_checks_first_20_witness :
  requests (trace (testNoBrokenLinks world_long))
  = SITE_URL :: take 20 long_page_links ∧
  ((20 < length long_page_links)%nat →
     length (take 20 long_page_links) = 20%nat ∧
     ∀ i link, (20 ≤ i)%nat → long_page_links !! i = Some link →
               link ∉ take 20 long_page_links) ∧
  ((length long_page_links ≤ 20)%nat → take 20 long_page_links = long_page_links).
Proof.
  apply (testNoBrokenLinks_checks_first_20 (PF:=platform) world_long (html_page long_page)
           long_page_links).
  - vm_compute. reflexivity.
  - reflexivity.
  - vm_compute. reflexivity.
Defined.

Example runTests_up : outcome (runTests world_up) = Return (report_up, Resolved).
Proof. vm_compute. reflexivity. Qed.

Lemma report_invariants_witness :
  outcome (run_probes suite world_up) = Return report_up ∧
  total (summary report_up) = Z.of_nat (length (tests report_up)) ∧
  passed_count (summary report_up) + failed_count (summary report_up)
    = total (summary report_up) ∧
  ∀ p, p ∈ tests report_up →
    1 ≤ attempts p ≤ MAX_RETRIES + 1 ∧ (is_Some (error p) ↔ status p = failed).
Proof.
  assert (Hrun : outcome (run_probes suite world_up) = Return report_up)
    by (vm_compute; reflexivity).
  split; [exact Hrun|].
  apply (proj1 (proj2 (report_invariants (PF:=platform) suite world_up)) report_up Hrun).
Defined.

Lemma exit_status_reflects_failures_witness :
  outcome (runTests_on suite world_up) = Return (report_up, Resolved) ∧
  let code := exit_status (outcome (runTests_on suite world_up)) in
  (code = 0 ↔ failed_count (summary report_up) = 0) ∧
  (failed_count (summary report_up) ≠ 0 → code = 1) ∧
  (suite = [] → code = 0).
Proof.
  split; [vm_compute; reflexivity|].
  apply (exit_status_reflects_failures (PF:=platform) suite world_up report_up Resolved).
  vm_compute. reflexivity.
Defined.

(** A run in which probes fail exits with status 1, a run without probes
    with status 0. *)
Example exit_status_untyped : exit_status (outcome (runTests world_untyped)) = 1.
Proof. vm_compute. reflexivity. Qed.

Example exit_status_no_probes : exit_status (outcome (runTests_on [] world_down)) = 0.
Proof. vm_compute. reflexivity. Qed.

End RunExamples.

(** ** Further properties *)

(** *** Strings *)

Module StringFacts.

Lemma append_cons (x : ascii) (a b : string) :
  String x a +:+ b = String x (a +:+ b).
Proof. reflexivity. Qed.

Lemma append_assoc (a b c : string) : (a +:+ b) +:+ c = a +:+ (b +:+ c).
Proof.
  induction a as [|x a IH]; [reflexivity|]. by rewrite !append_cons, IH.
Qed.


Lemma length_append (a b : string) :
  String.length (a +:+ b) = (String.length a + String.length b)%nat.
Proof.
  induction a as [|x a IH]; [reflexivity|]. rewrite append_cons. cbn. by rewrite IH.
Qed.

Lemma prefix_append (p b : string) : String.prefix p (p +:+ b) = true.
Proof.
  induction p as [|c p IH]; [by destruct b|].
  rewrite append_cons. cbn. by destruct (ascii_dec c c).
Qed.

Lemma includes_unfold (s p : string) :
  Str.includes s p =
  String.prefix p s ||
  match s with EmptyString => false | String _ s' => Str.includes s' p end.
Proof. by destruct s. Qed.

(** A string includes each of its prefixes. *)
Lemma includes_here (p b : string) : Str.includes (p +:+ b) p = true.
Proof. by rewrite includes_unfold, prefix_append. Qed.


Lemma includes_app_l (s b p : string) :
  Str.includes s p = true → Str.includes (s +:+ b) p = true.
Proof.
  induction s as [|c s IH]; rewrite includes_unfold.
  - rewrite orb_false_r. intros (r & Hr)%startsWith_inv.
    destruct p; [|done]. by rewrite includes_unfold; destruct b.
  - intros [(r & ->)%startsWith_inv | Hs]%orb_true_iff.
    + rewrite append_assoc. apply includes_here.
    + rewrite append_cons, includes_unfold, IH by done. apply orb_true_r.
Qed.


End StringFacts.

(** *** The matcher reports real matches only *)

Module RegexSoundness.
Import Regex RegexSpec.
Export StringFacts.

Lemma substring_consumed (u s' : string) :
  substring 0 (String.length (u +:+ s') - String.length s') (u +:+ s') = u.
Proof.
  rewrite length_append.
  replace (String.length u + String.length s' - String.length s')%nat
    with (String.length u) by lia.
  induction u as [|x u IH].
  - by destruct s'.
  - rewrite append_cons. cbn. by rewrite IH.
Qed.

Section Run.
Context {R : Type}.

Lemma star_greedy_sound p (k : string → option R) s x :
  star_greedy p k s = Some x →
  ∃ u s', s = u +:+ s' ∧ all_chars p u = true ∧ k s' = Some x.
Proof.
  induction s as [|c s IH]; cbn.
  - intros Hk. by exists EmptyString, EmptyString.
  - destruct (p c) eqn:Hp; [|intros Hk; by exists EmptyString, (String c s)].
    destruct (star_greedy p k s) as [y|].
    + intros [= ->]. destruct (IH eq_refl) as (u & s' & -> & Hu & Hk).
      exists (String c u), s'. cbn. by rewrite Hp, Hu.
    + intros Hk. by exists EmptyString, (String c s).
Qed.

Lemma star_lazy_sound p (k : string → option R) s x :
  star_lazy p k s = Some x →
  ∃ u s', s = u +:+ s' ∧ all_chars p u = true ∧ k s' = Some x.
Proof.
  induction s as [|c s IH]; cbn.
  - destruct (k EmptyString) eqn:Hk; [|done].
    intros [= ->]. by exists EmptyString, EmptyString.
  - destruct (k (String c s)) eqn:Hk.
    + intros [= ->]. by exists EmptyString, (String c s).
    + destruct (p c) eqn:Hp; [|done].
      intros (u & s' & -> & Hu & Hk')%IH.
      exists (String c u), s'. cbn. by rewrite Hp, Hu.
Qed.

(** A result of [run] comes from a prefix that the regex matches. *)
Lemma run_sound (r : regex) : ∀ s cap (k : cont) (x : R),
  run r s cap k = Some x →
  ∃ u s' cap', s = u +:+ s' ∧ matches r u cap cap' ∧ k s' cap' = Some x.
Proof.
  induction r as [p|r1 IH1 r2 IH2|r1 IH1|p|p|r1 IH1]; intros s cap k x; cbn.
  - destruct s as [|c s]; [done|]. destruct (p c) eqn:Hp; [|done].
    intros Hk. exists (String c EmptyString), s, cap.
    split; [done|]. split; [by constructor|done].
  - intros (u1 & s1 & c1 & -> & H1 & (u2 & s2 & c2 & -> & H2 & Hk)%IH2)%IH1.
    exists (u1 +:+ u2), s2, c2. rewrite append_assoc.
    split; [done|]. split; [by econstructor|done].
  - destruct (run r1 s cap k) as [y|] eqn:E.
    + intros [= ->]. apply IH1 in E as (u & s' & c' & -> & H1 & Hk).
      exists u, s', c'. split; [done|]. split; [by constructor|done].
    + intros Hk. exists EmptyString, s, cap.
      split; [done|]. split; [apply matches_opt_skipped|done].
  - intros (u & s' & -> & Hu & Hk)%star_greedy_sound.
    exists u, s', cap. split; [done|]. split; [by constructor|done].
  - intros (u & s' & -> & Hu & Hk)%star_lazy_sound.
    exists u, s', cap. split; [done|]. split; [by constructor|done].
  - intros (u & s' & c' & -> & H1 & Hk)%IH1.
    rewrite substring_consumed in Hk.
    exists u, s', (Some u). split; [done|]. split; [by econstructor|done].
Qed.

End Run.

(** Every capture that [exec_all] lists belongs to a match somewhere in
    the input. *)
Lemma exec_all_sound r : ∀ s skip m,
  m ∈ exec_all r skip s →
  ∃ before u after, s = before +:+ u +:+ after ∧ matches r u None m.
Proof.
  induction s as [|c s IH]; intros skip m; cbn; [by intros ?%elem_of_nil|].
  assert (Hrec : ∀ n, m ∈ exec_all r n s →
            ∃ before u after, String c s = before +:+ u +:+ after ∧ matches r u None m).
  { intros n (before & u & after & -> & Hm)%IH. by exists (String c before), u, after. }
  destruct skip as [|n]; [|apply Hrec].
  destruct (match_here r (String c s)) as [[cap len]|] eqn:E; [|apply Hrec].
  intros [->|Hin]%elem_of_cons; [|by eapply Hrec].
  unfold match_here in E.
  apply run_sound in E as (u & s' & cap' & Hs & Hm & [= <- _]).
  exists EmptyString, u, s'. by rewrite Hs.
Qed.

End RegexSoundness.

(** *** Every extracted [href] is written in the page *)

Module HrefShape.
Import Regex RegexSpec RegexSoundness LinkExtractor.

Lemma all_chars_app p (a b : string) :
  all_chars p (a +:+ b) = all_chars p a && all_chars p b.
Proof.
  induction a as [|x a IH]; [reflexivity|].
  rewrite append_cons. cbn. by rewrite IH, andb_assoc.
Qed.

Lemma all_chars_weaken (p q : ascii → bool) (s : string) :
  (∀ c, p c = true → q c = true) → all_chars p s = true → all_chars q s = true.
Proof.
  intros Hpq. induction s as [|c s IH]; cbn; [done|].
  intros [Hc Hs]%andb_true_iff. by rewrite (Hpq c Hc), IH.
Qed.

Lemma white_space_not_gt c : white_space c = true → other_than ">" c = true.
Proof. destruct c as [[] [] [] [] [] [] [] []]; by vm_compute. Qed.

Lemma matches_seq_inv r1 r2 u cap cap2 :
  matches (Seq r1 r2) u cap cap2 →
  ∃ u1 u2 cap1, u = u1 +:+ u2 ∧ matches r1 u1 cap cap1 ∧ matches r2 u2 cap1 cap2.
Proof. inversion 1; subst. eauto 6. Qed.

Lemma matches_chr_inv p u cap cap' :
  matches (Chr p) u cap cap' →
  ∃ c, u = String c EmptyString ∧ p c = true ∧ cap' = cap.
Proof. inversion 1; subst. eauto. Qed.

Lemma matches_exactly_inv a u cap cap' :
  matches (Chr (exactly a)) u cap cap' → u = String a EmptyString ∧ cap' = cap.
Proof.
  intros (c & -> & Hc & ->)%matches_chr_inv.
  unfold exactly in Hc. by apply Ascii.eqb_eq in Hc as ->.
Qed.

Lemma matches_plus_inv p u cap cap' :
  matches (Plus p) u cap cap' →
  ∃ c rest, u = String c rest ∧ p c = true ∧ all_chars p rest = true ∧ cap' = cap.
Proof.
  intros (u1 & u2 & cap1 & -> & (c & -> & Hc & ->)%matches_chr_inv & H2)%matches_seq_inv.
  inversion H2; subst. exists c, u2. by rewrite append_cons.
Qed.

Lemma matches_linkRegex u m :
  matches linkRegex u None m →
  ∃ href a sp mid h r e f,
    m = Some href ∧ u = anchor_text a sp mid h r e f href ∧
    letter_ci "a" "A" a = true ∧
    sp ≠ EmptyString ∧ all_chars white_space sp = true ∧
    all_chars (other_than ">") mid = true ∧
    letter_ci "h" "H" h = true ∧ letter_ci "r" "R" r = true ∧
    letter_ci "e" "E" e = true ∧ letter_ci "f" "F" f = true ∧
    all_chars (other_than Str.dquote) href = true.
Proof.
  unfold linkRegex.
  intros (? & t & ? & -> & [-> ->]%matches_exactly_inv & H)%matches_seq_inv.
  apply matches_seq_inv in H as (? & t0 & ? & -> & (a & -> & Ha & ->)%matches_chr_inv & H).
  apply matches_seq_inv in H
    as (? & t1 & ? & -> & (w1 & s1 & -> & Hw1 & Hs1 & ->)%matches_plus_inv & H).
  apply matches_seq_inv in H as (mid & t2 & cap1 & -> & Hopt & H).
  assert (Hmid : all_chars (other_than ">") mid = true ∧ cap1 = None).
  { inversion Hopt as [| |r0 u' c0 c0' Hgrp| | | |]; subst; [|done].
    apply matches_seq_inv in Hgrp
      as (j & ? & ? & -> & Hj & (w2 & s2 & -> & Hw2 & Hs2 & ->)%matches_plus_inv).
    inversion Hj; subst. split; [|done].
    rewrite all_chars_app. apply andb_true_iff. split; [done|].
    apply (all_chars_weaken white_space); [apply white_space_not_gt|].
    cbn. by rewrite Hw2, Hs2. }
  destruct Hmid as [Hmid ->]. clear Hopt.
  apply matches_seq_inv in H as (? & t3 & ? & -> & (h & -> & Hh & ->)%matches_chr_inv & H).
  apply matches_seq_inv in H as (? & t4 & ? & -> & (r & -> & Hr & ->)%matches_chr_inv & H).
  apply matches_seq_inv in H as (? & t5 & ? & -> & (e & -> & He & ->)%matches_chr_inv & H).
  apply matches_seq_inv in H as (? & t6 & ? & -> & (f & -> & Hf & ->)%matches_chr_inv & H).
  apply matches_seq_inv in H as (? & t7 & ? & -> & [-> ->]%matches_exactly_inv & H).
  apply matches_seq_inv in H as (? & t8 & ? & -> & [-> ->]%matches_exactly_inv & H).
  apply matches_seq_inv in H as (href & t9 & ? & -> & Hgrp & [-> ->]%matches_exactly_inv).
  inversion Hgrp as [| | | | | |r0 u' c0 c0' Hbody]; subst.
  inversion Hbody; subst.
  exists href, a, (String w1 s1), mid, h, r, e, f.
  split; [done|]. split.
  { unfold anchor_text. rewrite ?append_cons, ?append_assoc. reflexivity. }
  repeat split; try done.
  cbn. by rewrite Hw1, Hs1.
Qed.

(** X1. Every [href] that the scan of a page yields is written in the
    page: somewhere the page holds an opening anchor ([<a] or [<A]), white
    space, possibly more of the same tag (no closing angle bracket), then
    [href=] in any case, a double quote, exactly that [href], and a double
    quote; the [href] itself holds no double quote. *)
Theorem hrefs_written_in_page html m :
  m ∈ hrefs html →
  ∃ href before a sp mid h r e f after,
    m = Some href ∧
    html = before +:+ anchor_text a sp mid h r e f href +:+ after ∧
    letter_ci "a" "A" a = true ∧
    sp ≠ EmptyString ∧ all_chars white_space sp = true ∧
    all_chars (other_than ">") mid = true ∧
    letter_ci "h" "H" h = true ∧ letter_ci "r" "R" r = true ∧
    letter_ci "e" "E" e = true ∧ letter_ci "f" "F" f = true ∧
    all_chars (other_than Str.dquote) href = true.
Proof.
  intros (before & u & after & -> & Hm)%exec_all_sound.
  apply matches_linkRegex in Hm
    as (href & a & sp & mid & h & r & e & f & -> & -> & Hrest).
  exists href, before, a, sp, mid, h, r, e, f, after. by split.
Qed.

End HrefShape.

(** *** More on the retry scheduler *)

Section SchedulerMore.
Context {PF : Platform}.

Lemma attempt_loop_timed testName testFn retries startTime : ∀ idx lastError wp p,
  let r := attempt_loop testName testFn retries startTime idx lastError wp in
  outcome r = Return p →
  name p = testName ∧ duration p = Date_now (final r) - startTime.
Proof.
  induction idx as [|a idx IH]; intros lastError wp p; cbv zeta.
  - rewrite attempt_loop_nil. destruct lastError; [|done]. by intros [= <-].
  - rewrite attempt_loop_cons. cbv zeta.
    destruct (outcome (testFn (entered a wp))) as [[]|e].
    + by intros [= <-].
    + apply IH.
Qed.

(** X2. For an action whose every invocation settles and that fails
    only by throwing an [Error] object, as the five probes do, and a
    non-negative number of retries, [executeTest] returns a result and
    does not throw. The result carries the name given, and its duration is
    the time on the clock when [executeTest] is done minus the time when it
    started, the waits between attempts included. *)
Theorem executeTest_settles testName testFn retries w :
  0 ≤ retries →
  let r := executeTest testName testFn retries w in
  ∃ p, outcome r = Return p ∧ name p = testName ∧
       duration p = Date_now (final r) - Date_now w.
Proof.
  intros Hr. cbv zeta.
  destruct (executeTest_total testName testFn retries w Hr) as [p Hp].
  exists p. split; [done|].
  rewrite executeTest_run in *. by apply attempt_loop_timed in Hp.
Qed.

(** What a result of the loop tells about the invocations, from iteration
    [i] on. *)
Lemma attempt_loop_inv testName testFn retries startTime w :
  ∀ (m i : nat) lastError wp p,
  entered (Z.of_nat i) wp = env_at testFn w i →
  Z.of_nat i + Z.of_nat m = retries + 1 →
  outcome (attempt_loop testName testFn retries startTime
             (seqZ (Z.of_nat i) (Z.of_nat m)) lastError wp) = Return p →
  match status p with
  | passed =>
      ∃ k : nat, (i ≤ k < i + m)%nat ∧ attempts p = Z.of_nat k + 1 ∧
        outcome (testFn (env_at testFn w k)) = Return tt ∧
        ∀ j, (i ≤ j < k)%nat → ∃ e, outcome (testFn (env_at testFn w j)) = Throw e
  | failed =>
      (∀ j, (i ≤ j < i + m)%nat → ∃ e, outcome (testFn (env_at testFn w j)) = Throw e) ∧
      match m with
      | O => error p = message <$> lastError
      | S m' => ∃ e, outcome (testFn (env_at testFn w (i + m')%nat)) = Throw e ∧
                     error p = Some (message e)
      end
  end.
Proof.
  induction m as [|m IH]; intros i lastError wp p Hent Hlen.
  - rewrite seqZ_nil by lia. rewrite attempt_loop_nil.
    destruct lastError as [e|]; [|done]. intros [= <-]. cbn.
    split; [|done]. intros j Hj. lia.
  - rewrite seqZ_cons by lia. rewrite attempt_loop_cons. cbv zeta. rewrite Hent.
    destruct (outcome (testFn (env_at testFn w i))) as [[]|e] eqn:Hi.
    + intros [= <-]. cbn. exists i. split; [lia|]. split; [done|]. split; [done|].
      intros j Hj. lia.
    + replace (Z.succ (Z.of_nat i)) with (Z.of_nat (S i)) by lia.
      replace (Z.pred (Z.of_nat (S m))) with (Z.of_nat m) by lia.
      cbn [after outcome]. intros Hp.
      apply (IH (S i) (Some e)) in Hp; [|by apply entered_env_at|lia].
      destruct (status p).
      * destruct Hp as (k & Hk & Hatt & Hok & Hfail).
        exists k. split; [lia|]. split; [done|]. split; [done|].
        intros j Hj. destruct (decide (j = i)) as [->|]; [eauto|]. apply Hfail. lia.
      * destruct Hp as [Hfail Hlast]. split.
        -- intros j Hj. destruct (decide (j = i)) as [->|]; [eauto|]. apply Hfail. lia.
        -- destruct m as [|m'].
           ++ exists e. cbn in Hlast. by rewrite Nat.add_0_r.
           ++ destruct Hlast as (e' & He' & Herr). exists e'.
              by replace (i + S m')%nat with (S i + m')%nat by lia.
Qed.

(** X3. A result of [executeTest] tells what the action did.  A passed
    result with [k] attempts means that invocation [k] returned and every
    earlier one threw; a failed result means that every one of the
    [retries + 1] invocations threw, and its error is the message of the
    last of them. *)
Theorem executeTest_result_explains testName testFn retries w p :
  outcome (executeTest testName testFn retries w) = Return p →
  match status p with
  | passed =>
      ∃ k : nat, (1 ≤ k)%nat ∧ attempts p = Z.of_nat k ∧
        outcome (testFn (env_at testFn w (k - 1))) = Return tt ∧
        ∀ j, (S j < k)%nat → ∃ e, outcome (testFn (env_at testFn w j)) = Throw e
  | failed =>
      (∀ j, (j ≤ Z.to_nat retries)%nat →
            ∃ e, outcome (testFn (env_at testFn w j)) = Throw e) ∧
      ∃ e, outcome (testFn (env_at testFn w (Z.to_nat retries))) = Throw e ∧
           error p = Some (message e)
  end.
Proof.
  intros Hp.
  destruct (Z_lt_le_dec retries 0) as [Hneg|Hpos].
  { by rewrite executeTest_negative in Hp. }
  rewrite executeTest_run in Hp.
  pose proof (attempt_loop_inv testName testFn retries (Date_now w) w
                (Z.to_nat (retries + 1)) O None w p) as Hinv.
  rewrite Z2Nat.id in Hinv by lia. change (Z.of_nat 0) with 0 in Hinv.
  specialize (Hinv eq_refl ltac:(lia) Hp).
  destruct (status p).
  - destruct Hinv as (k & Hk & Hatt & Hok & Hfail).
    exists (S k). split; [lia|]. split; [lia|].
    replace (S k - 1)%nat with k by lia. split; [done|].
    intros j Hj. apply Hfail. lia.
  - destruct Hinv as [Hfail Hlast]. split.
    + intros j Hj. apply Hfail. lia.
    + replace (Z.to_nat (retries + 1)) with (S (Z.to_nat retries)) in Hlast by lia.
      destruct Hlast as (e & He & Herr). by exists e.
Qed.

End SchedulerMore.

(** *** More on the probes *)

Section ProbesMore.
Context {UA : UrlApi} {PF : Platform} {PE : ProcessEnv}.

Lemma page_check_run (ok : FetchResponse → bool)
    (err : string → FetchResponse → JsError) page w :
  page_check ok err page w =
  let r := makeRequest (SITE_URL +:+ page) w in
  match outcome r with
  | Return response =>
      mkRun (if ok response then Return tt else Throw (err page response))
            (final r) (trace r)
  | Throw e => mkRun (Throw e) (final r) (trace r)
  end.
Proof.
  unfold page_check. rewrite bind_run. cbv zeta.
  destruct (outcome (makeRequest (SITE_URL +:+ page) w)) as [response|e]; [|done].
  destruct (ok response); unfold after, throw, mret, async_ret; cbn;
    by rewrite app_nil_r.
Qed.

Lemma for_of_cons {A} (x : A) xs (f : A → Async unit) w :
  for_of (x :: xs) f w =
  match outcome (f x w) with
  | Return _ => after (trace (f x w)) (for_of xs f (final (f x w)))
  | Throw e => mkRun (Throw e) (final (f x w)) (trace (f x w))
  end.
Proof. cbn [for_of]. by rewrite bind_run. Qed.

(** A page-list probe returns exactly when every page answers, in turn,
    with an accepted response. *)
Lemma page_probe_passes_iff ok err : ∀ pages w,
  outcome (for_of pages (page_check ok err) w) = Return tt ↔
  all_answer ok ((λ page, SITE_URL +:+ page) <$> pages) w.
Proof.
  induction pages as [|page pages IH]; intros w.
  - cbn. done.
  - rewrite for_of_cons, page_check_run. cbv zeta. cbn [fmap list_fmap all_answer].
    destruct (outcome (makeRequest (SITE_URL +:+ page) w)) as [response|e] eqn:Hreq;
      cbn [outcome final trace].
    + destruct (ok response) eqn:Hok; cbn [after outcome].
      * rewrite IH. split; [intros Hall; split; eauto|by intros [_ ?]].
      * split; [done|]. intros [(r & [= <-] & Hr) _]. congruence.
    + split; [done|]. by intros [(r & ? & _) _].
Qed.

(** A page-list probe stops at the first page that answers with a response
    that is not accepted: it throws the error of that page, and the pages
    after it are not requested. *)
Lemma page_probe_first_failure ok err : ∀ pre page post response w,
  all_answer ok ((λ p, SITE_URL +:+ p) <$> pre) w →
  outcome (makeRequest (SITE_URL +:+ page)
             (after_requests ((λ p, SITE_URL +:+ p) <$> pre) w)) = Return response →
  ok response = false →
  let r := for_of (pre ++ page :: post) (page_check ok err) w in
  outcome r = Throw (err page response) ∧
  requests (trace r) = (λ p, SITE_URL +:+ p) <$> (pre ++ [page]).
Proof.
  induction pre as [|p pre IH]; intros page post response w Hall Hreq Hok; cbv zeta.
  - cbn [app]. rewrite for_of_cons, page_check_run. cbv zeta.
    cbn [fmap list_fmap after_requests foldl] in Hreq. rewrite Hreq, Hok.
    cbn [outcome final trace]. split; [done|].
    rewrite makeRequest_trace.
    destruct (makeRequest_Return _ _ _ Hreq) as [u ->]. reflexivity.
  - cbn [fmap list_fmap all_answer] in Hall. destruct Hall as [(r0 & Hr0 & Hok0) Hall].
    cbn [app]. rewrite for_of_cons, page_check_run. cbv zeta.
    rewrite Hr0, Hok0. cbn [outcome final trace after].
    destruct (IH page post response (final (makeRequest (SITE_URL +:+ p) w)) Hall Hreq Hok)
      as [Hout Htr].
    split; [exact Hout|].
    rewrite requests_app, Htr, makeRequest_trace.
    destruct (makeRequest_Return _ _ _ Hr0) as [u ->]. reflexivity.
Qed.

(** X4. The documentation probe returns exactly when the three pages
    [/docs/], [/docs/workflows/] and [/docs/agents/], requested in this
    order, each answer with status 200. *)
Theorem testDocumentationPages_passes_iff w :
  outcome (testDocumentationPages w) = Return tt ↔
  all_answer (λ response, statusCode response =? 200)
    [ SITE_URL +:+ "/docs/"; SITE_URL +:+ "/docs/workflows/";
      SITE_URL +:+ "/docs/agents/" ] w.
Proof.
  apply (page_probe_passes_iff (λ response, statusCode response =? 200)
           (λ page response, mkError ("Page " +:+ page +:+ " returned status "
                                      +:+ Str.of_Z (statusCode response)))
           ["/docs/"; "/docs/workflows/"; "/docs/agents/"] w).
Qed.

(** X5. The documentation probe fails on the first page whose status is
    not 200: the error names that page and its status, and no page after it
    is requested. *)
Theorem testDocumentationPages_first_failure w pre page post response :
  ["/docs/"; "/docs/workflows/"; "/docs/agents/"] = pre ++ page :: post →
  all_answer (λ r, statusCode r =? 200) ((λ p, SITE_URL +:+ p) <$> pre) w →
  outcome (makeRequest (SITE_URL +:+ page)
             (after_requests ((λ p, SITE_URL +:+ p) <$> pre) w)) = Return response →
  statusCode response ≠ 200 →
  outcome (testDocumentationPages w)
    = Throw (mkError ("Page " +:+ page +:+ " returned status "
                      +:+ Str.of_Z (statusCode response))) ∧
  requests (trace (testDocumentationPages w))
    = (λ p, SITE_URL +:+ p) <$> (pre ++ [page]).
Proof.
  intros Hpages Hall Hreq Hst.
  unfold testDocumentationPages. cbv zeta. rewrite Hpages.
  apply (page_probe_first_failure (λ r, statusCode r =? 200)
           (λ page r, mkError ("Page " +:+ page +:+ " returned status "
                               +:+ Str.of_Z (statusCode r)))); try done.
  by apply Z.eqb_neq.
Qed.

(** X6. The assets probe returns exactly when [/favicon.svg] and
    [/_astro/], requested in this order, each answer with one of the
    statuses 200, 301, 302 and 403; a disabled directory listing passes. *)
Theorem testAssetsLoad_passes_iff w :
  outcome (testAssetsLoad w) = Return tt ↔
  all_answer (λ response, bool_decide (statusCode response ∈ [200; 301; 302; 403]))
    [ SITE_URL +:+ "/favicon.svg"; SITE_URL +:+ "/_astro/" ] w.
Proof.
  apply (page_probe_passes_iff
           (λ response, bool_decide (statusCode response ∈ [200; 301; 302; 403]))
           (λ asset response,
              mkError ("Asset " +:+ asset +:+ " returned unexpected status "
                       +:+ Str.of_Z (statusCode response)))
           ["/favicon.svg"; "/_astro/"] w).
Qed.

(** X7. The search probe returns exactly when the request for
    [/pagefind/pagefind.js] resolves with status 200 and a body that is not
    empty. *)
Theorem testSearchFunctionality_passes_iff w :
  outcome (testSearchFunctionality w) = Return tt ↔
  ∃ response,
    outcome (makeRequest (SITE_URL +:+ "/pagefind/pagefind.js") w) = Return response ∧
    statusCode response = 200 ∧ body response ≠ EmptyString.
Proof.
  unfold testSearchFunctionality. cbv zeta. rewrite bind_run.
  destruct (outcome (makeRequest _ w)) as [response|e].
  2:{ split; [done|]. by intros (? & ? & _). }
  unfold after, throw, mret, async_ret. cbn [outcome].
  destruct (Z.eqb_spec (statusCode response) 200) as [Hst|Hst]; cbn [negb].
  2:{ split; [done|]. intros (r & [= <-] & ? & _). done. }
  destruct (body response) as [|c b] eqn:Hbody; cbn.
  - split; [done|]. intros (r & [= <-] & _ & Hb). congruence.
  - split; [|done]. intros _. exists response. by rewrite Hbody.
Qed.

(** *** The link probe *)

Lemma check_link_eq link brokenLinks w :
  check_link link brokenLinks w =
  mkRun (Return (brokenLinks ++ link_verdict link (outcome (makeRequest link w))))
        (final (makeRequest link w)) (trace (makeRequest link w)).
Proof.
  unfold check_link. rewrite try_catch_run, bind_run.
  destruct (outcome (makeRequest link w)) as [linkResponse|error]; cbn [link_verdict].
  - destruct (400 <=? statusCode linkResponse);
      unfold after, mret, async_ret; cbn; by rewrite !app_nil_r.
  - unfold after, mret, async_ret; cbn. by rewrite !app_nil_r.
Qed.

(** The loop over the links never throws: it returns the links found
    broken, in the order of the links. *)
Lemma check_links_eq : ∀ links brokenLinks w,
  outcome (check_links links brokenLinks w)
  = Return (brokenLinks ++ broken_among links w).
Proof.
  induction links as [|link rest IH]; intros brokenLinks w.
  - cbn. by rewrite app_nil_r.
  - cbn [check_links broken_among]. rewrite bind_run, check_link_eq.
    cbn [outcome final trace after]. by rewrite IH, app_assoc.
Qed.

Lemma broken_among_nil_iff : ∀ links w,
  broken_among links w = [] ↔
  all_answer (λ response, statusCode response <? 400) links w.
Proof.
  induction links as [|link rest IH]; intros w; cbn [broken_among all_answer].
  - done.
  - rewrite <- IH. split.
    + intros [Hv Hrest]%app_eq_nil. split; [|done].
      destruct (outcome (makeRequest link w)) as [r|e]; [|done].
      exists r. split; [done|]. cbn in Hv.
      destruct (Z.leb_spec 400 (statusCode r)); [done|]. by apply Z.ltb_lt.
    + intros [(r & -> & Hr) ->]. rewrite app_nil_r. cbn.
      apply Z.ltb_lt in Hr. destruct (Z.leb_spec 400 (statusCode r)); [lia|done].
Qed.

(** The link probe, once the homepage is fetched and the links are
    extracted. *)
Lemma testNoBrokenLinks_outcome w response links :
  outcome (makeRequest SITE_URL w) = Return response →
  statusCode response = 200 →
  LinkExtractor.extractLinks (body response) SITE_URL = Return links →
  let brokenLinks := broken_among (take 20 links) (final (makeRequest SITE_URL w)) in
  outcome (testNoBrokenLinks w) =
  if (0 <? length brokenLinks)%nat then
    Throw (mkError ("Found " +:+ Str.of_Z (Z.of_nat (length brokenLinks))
                    +:+ " broken links: "
                    +:+ Str.join ", " (describe <$> brokenLinks)))
  else Return tt.
Proof.
  intros Hreq Hst Hx. cbv zeta.
  unfold testNoBrokenLinks. rewrite bind_run, Hreq, Hst.
  cbn [Z.eqb Pos.eqb negb after outcome]. rewrite bind_run. unfold sync at 1 2.
  rewrite Hx. cbn [outcome final after]. rewrite bind_run, check_links_eq.
  cbn [app after outcome].
  by destruct (0 <? length _)%nat.
Qed.

(** X8. The link probe returns exactly when the homepage is fetched with
    status 200, the extraction of its links does not throw, and each of the
    first 20 links, requested in turn, answers with a status below 400. *)
Theorem testNoBrokenLinks_passes_iff w :
  outcome (testNoBrokenLinks w) = Return tt ↔
  ∃ response links,
    outcome (makeRequest SITE_URL w) = Return response ∧
    statusCode response = 200 ∧
    LinkExtractor.extractLinks (body response) SITE_URL = Return links ∧
    all_answer (λ r, statusCode r <? 400) (take 20 links)
      (final (makeRequest SITE_URL w)).
Proof.
  split.
  - unfold testNoBrokenLinks. rewrite bind_run.
    destruct (outcome (makeRequest SITE_URL w)) as [response|e] eqn:Hreq; [|done].
    cbn [after outcome].
    destruct (Z.eqb_spec (statusCode response) 200) as [Hst|Hst]; [|done].
    cbn [negb]. rewrite bind_run. unfold sync at 1 2.
    destruct (LinkExtractor.extractLinks (body response) SITE_URL)
      as [links|e] eqn:Hx; [|done].
    cbn [outcome final after]. rewrite bind_run, check_links_eq.
    cbn [app after outcome].
    destruct (broken_among (take 20 links) _) as [|b bs] eqn:Hb; [|done].
    intros _. exists response, links. by rewrite <- broken_among_nil_iff.
  - intros (response & links & Hreq & Hst & Hx & Hall).
    rewrite (testNoBrokenLinks_outcome w response links Hreq Hst Hx). cbv zeta.
    apply broken_among_nil_iff in Hall. by rewrite Hall.
Qed.



End ProbesMore.

(** *** Probes of a site whose URL does not parse *)

Section ConstantFailure.
Context {PF : Platform}.

(** An action that throws [e] at once, whatever the world: every attempt
    fails and no event but the scheduler's own is seen. *)
Lemma attempt_loop_constant_failure testName testFn retries startTime e :
  (∀ w, testFn w = mkRun (Throw e) w []) →
  ∀ idx lastError wp,
  (lastError = None → idx ≠ []) →
  (∀ e', lastError = Some e' → e' = e) →
  let r := attempt_loop testName testFn retries startTime idx lastError wp in
  (∃ d, outcome r = Return {| name := testName; status := failed; duration := d;
                              attempts := retries + 1;
                              error := Some (message e) |}) ∧
  Forall (λ ev, scheduler_event ev = true) (trace r).
Proof.
  intros Hfn. induction idx as [|a idx IH]; intros lastError wp Hne Hlast; cbv zeta.
  - rewrite attempt_loop_nil. destruct lastError as [e'|]; [|by destruct Hne].
    rewrite (Hlast e' eq_refl). cbn. split; [eauto|constructor].
  - rewrite attempt_loop_cons. cbv zeta. rewrite Hfn. cbn [outcome final trace after].
    destruct (IH (Some e) (entered a wp)) as [Hout Htr]; [done|by intros ? [= <-]|].
    split; [exact Hout|]. rewrite app_nil_r. apply Forall_app. split; [|exact Htr].
    unfold schedule_step. destruct (0 <? a); repeat constructor.
Qed.

End ConstantFailure.

Section UnparsableSite.
Context {UA : UrlApi} {PF : Platform} {PE : ProcessEnv}.

Lemma makeRequest_unparsable url w :
  URL_parse url = None → makeRequest url w = mkRun (Throw (mkError "Invalid URL")) w [].
Proof. intros Hu. by rewrite makeRequest_run, Hu. Qed.

Lemma requests_scheduler t :
  Forall (λ ev, scheduler_event ev = true) t → requests t = [].
Proof.
  induction 1 as [|ev t Hev _ IH]; [done|]. destruct ev; try done; exact IH.
Qed.

(** X10. When [SITE_URL] is not a URL (an unset variable, for one), the
    run is not aborted: the homepage probe and the link probe go through
    all their attempts without sending a request, and each ends failed
    with the error [Invalid URL]. *)
Theorem unparsable_site_fails_probes retries w testName :
  URL_parse SITE_URL = None →
  0 ≤ retries →
  ∀ testFn, testFn = testHomepageLoads ∨ testFn = testNoBrokenLinks →
  let r := executeTest testName testFn retries w in
  (∃ d, outcome r = Return {| name := testName; status := failed; duration := d;
                              attempts := retries + 1;
                              error := Some "Invalid URL" |}) ∧
  requests (trace r) = [].
Proof.
  intros Hu Hr testFn HtestFn. cbv zeta.
  assert (Hfn : ∀ w', testFn w' = mkRun (Throw (mkError "Invalid URL")) w' []).
  { intros w'. destruct HtestFn as [-> | ->].
    - unfold testHomepageLoads. by rewrite bind_run, makeRequest_unparsable.
    - unfold testNoBrokenLinks. by rewrite bind_run, makeRequest_unparsable. }
  rewrite executeTest_run.
  destruct (attempt_loop_constant_failure testName testFn retries (Date_now w) _ Hfn
              (seqZ 0 (retries + 1)) None w) as [Hout Htr].
  - intros _. rewrite seqZ_cons by lia. done.
  - done.
  - split; [exact Hout|]. by apply requests_scheduler.
Qed.

End UnparsableSite.

(** *** More on the test runner *)

Section RunnerMore.
Context {UA : UrlApi} {PF : Platform} {PE : ProcessEnv} {JA : JsonApi}.

Lemma run_each_names : ∀ probes testResults w rep,
  outcome (run_each probes testResults w) = Return rep →
  name <$> tests rep = (name <$> tests testResults) ++ (fst <$> probes).
Proof.
  induction probes as [|test probes IH]; intros testResults w rep.
  - cbn [run_each]. unfold mret, async_ret. cbn. intros [= <-]. by rewrite app_nil_r.
  - rewrite run_each_cons. cbv zeta.
    destruct (outcome (executeTest _ _ _ w)) as [result|e] eqn:Hx; [|done].
    cbn [after outcome]. intros Hrep%IH. rewrite Hrep.
    apply executeTest_result in Hx as (Hname & _).
    unfold record. destruct (status result); cbn [tests];
      rewrite fmap_app; cbn [fmap list_fmap]; rewrite Hname, <- app_assoc; done.
Qed.

(** X11. A report lists one result for every probe, under the probe's
    name and in the order of the probes, whether earlier probes failed or
    not; and its counters [passed] and [failed] are the numbers of results
    with that status. *)
Theorem report_lists_every_probe probes w rep :
  outcome (run_probes probes w) = Return rep →
  name <$> tests rep = fst <$> probes ∧
  passed_count (summary rep) = count_status passed (tests rep) ∧
  failed_count (summary rep) = count_status failed (tests rep).
Proof.
  intros Hrep. split; [|by apply run_probes_ok in Hrep as [_ ?]].
  rewrite run_probes_run in Hrep. cbv zeta in Hrep.
  destruct (outcome (run_each probes testResults_init w)) as [testResults|e] eqn:Hx;
    [|done].
  injection Hrep as <-. cbn [tests]. by apply run_each_names in Hx.
Qed.

Lemma runTests_on_run probes w :
  runTests_on probes w =
  let r := run_probes probes w in
  match outcome r with
  | Throw e => mkRun (Throw e) (final r) (trace r)
  | Return rep =>
      let (c, w1) := fs_writeFileSync "/tmp/smoke-test-results.json"
                       (JSON_stringify 2 rep) (final r) in
      match c with
      | Throw e => mkRun (Throw e) w1 (trace r ++ [report_written rep])
      | Return _ =>
          let ending := if 0 <? failed_count (summary rep) then Exited 1 else Resolved in
          match GITHUB_OUTPUT with
          | Some path =>
              if String.eqb path EmptyString then
                mkRun (Return (rep, ending)) w1 (trace r ++ [report_written rep])
              else
                let data := github_output rep +:+ newline in
                let (c2, w2) := fs_appendFileSync path data w1 in
                match c2 with
                | Throw e =>
                    mkRun (Throw e) w2
                      (trace r ++ [report_written rep; EvAppendFile path data])
                | Return _ =>
                    mkRun (Return (rep, ending)) w2
                      (trace r ++ [report_written rep; EvAppendFile path data])
                end
          | None => mkRun (Return (rep, ending)) w1 (trace r ++ [report_written rep])
          end
      end
  end.
Proof.
  unfold runTests_on, report_written. rewrite bind_run. cbv zeta.
  destruct (outcome (run_probes probes w)) as [rep|e]; [|done].
  unfold mbind, async_bind, writeFileSync, appendFileSync, mret, async_ret, after.
  destruct (fs_writeFileSync _ _ _) as [[[]|e] w1]; cbn [outcome final trace];
    [|by rewrite ?app_nil_r].
  destruct GITHUB_OUTPUT as [path|]; [destruct (String.eqb path EmptyString)|];
    cbn [negb outcome final trace];
    try (destruct (fs_appendFileSync _ _ _) as [[[]|e] w2]; cbn [outcome final trace]);
    try (destruct (0 <? failed_count (summary rep)); cbn [outcome final trace]);
    by rewrite ?app_nil_r.
Qed.

(** X12. A run that settles without throwing writes the report file
    once, after the last probe, with the report as [JSON.stringify] prints
    it with indent 2; then it appends the output lines to the file named by
    [GITHUB_OUTPUT] when that variable is set and not empty, and does
    nothing else. *)
Theorem runTests_on_outputs probes w rep ending :
  outcome (runTests_on probes w) = Return (rep, ending) →
  trace (runTests_on probes w) =
  trace (run_probes probes w)
  ++ EvWriteFile "/tmp/smoke-test-results.json" (JSON_stringify 2 rep)
  :: match GITHUB_OUTPUT with
     | Some path =>
         if String.eqb path EmptyString then []
         else [EvAppendFile path (github_output rep +:+ newline)]
     | None => []
     end.
Proof.
  rewrite runTests_on_run. cbv zeta.
  destruct (outcome (run_probes probes w)) as [rep'|e]; [|done].
  destruct (fs_writeFileSync _ _ _) as [[[]|e] w1]; [|done].
  destruct GITHUB_OUTPUT as [path|].
  - destruct (String.eqb path EmptyString).
    + by intros [= <- _].
    + destruct (fs_appendFileSync _ _ _) as [[[]|e] w2]; [|done].
      by intros [= <- _].
  - by intros [= <- _].
Qed.

(** X13. When the report file cannot be written, the run throws the error
    of the write, whatever the probes did: the process exits with status 1
    even if no probe failed, and nothing is appended to the
    [GITHUB_OUTPUT] file. *)
Theorem runTests_on_write_failure probes w rep e w1 :
  outcome (run_probes probes w) = Return rep →
  fs_writeFileSync "/tmp/smoke-test-results.json" (JSON_stringify 2 rep)
    (final (run_probes probes w)) = (Throw e, w1) →
  let r := runTests_on probes w in
  outcome r = Throw e ∧ exit_status (outcome r) = 1 ∧
  trace r = trace (run_probes probes w)
            ++ [EvWriteFile "/tmp/smoke-test-results.json" (JSON_stringify 2 rep)].
Proof.
  intros Hrep Hwrite. cbv zeta. rewrite runTests_on_run. cbv zeta.
  rewrite Hrep, Hwrite. done.
Qed.

(** X14. With a negative [MAX_RETRIES] and at least one probe, the run
    throws before anything happens: no probe is called, no request is sent,
    no report is written, and the process exits with status 1. *)
Theorem runTests_on_negative_retries probes w :
  MAX_RETRIES < 0 →
  probes ≠ [] →
  let r := runTests_on probes w in
  outcome r = Throw (mkError "Cannot read properties of null (reading 'message')") ∧
  trace r = [] ∧ final r = w ∧ exit_status (outcome r) = 1.
Proof.
  intros Hneg Hne. cbv zeta. destruct probes as [|test probes]; [done|].
  rewrite runTests_on_run, run_probes_run. cbv zeta.
  rewrite run_each_cons. cbv zeta. rewrite executeTest_negative by done.
  done.
Qed.

End RunnerMore.

(** *** When the link extractor throws *)

Module LinkExtractorMore.
Import LinkExtractor LinkExtractorFacts.

Section ExtractionErrors.
Context {UA : UrlApi}.

Lemma visit_Throw_iff baseUrl href e :
  visit baseUrl href = Throw e ↔ e = mkError "Invalid URL" ∧ unparsable baseUrl href.
Proof.
  unfold unparsable, visit, absolute, new_URL.
  destruct (skipped href); [split; [done|by intros (_ & ? & _)]|].
  destruct (Str.startsWith href "http://" || Str.startsWith href "https://");
    [|destruct (Str.startsWith href "/")];
    destruct (URL_parse baseUrl) as [base|] eqn:Hb; cbn;
    try (split; [intros [= <-]; eauto|by intros [-> _]]);
    match goal with
    | |- context [URL_parse ?a] =>
        destruct (URL_parse a) as [linkObj|] eqn:Ha; cbn
    end;
    try (split; [intros [= <-]; split; [done|]; split; [done|]; right; eauto
                |by intros [-> _]]);
    (split; [by destruct (String.eqb _ _)|]);
    intros (_ & _ & [?|(a & [= <-] & Hn)]); congruence.
Qed.

Lemma collect_Throw_iff baseUrl e : ∀ ms links,
  Forall is_Some ms →
  collect baseUrl ms links = Throw e ↔
  e = mkError "Invalid URL" ∧ ∃ href, Some href ∈ ms ∧ unparsable baseUrl href.
Proof.
  induction ms as [|m ms IH]; intros links Hdef.
  - cbn. split; [done|]. by intros (_ & ? & ?%elem_of_nil & _).
  - apply Forall_cons in Hdef as [[href ->] Hdef]. cbn [collect].
    destruct (visit baseUrl href) as [p|e'] eqn:Hv; cbn.
    + rewrite IH by done. split.
      * intros (-> & h & Hin & Hh). split; [done|]. exists h. split; [by right|done].
      * intros (-> & h & [[= ->]|Hin]%elem_of_cons & Hh); [|by eauto].
        assert (visit baseUrl href = Throw (mkError "Invalid URL")) as Hthrow
          by by apply visit_Throw_iff.
        congruence.
    + apply visit_Throw_iff in Hv as [-> Hu]. split.
      * intros [= <-]. split; [done|]. exists href. split; [left|done].
      * by intros [-> _].
Qed.

(** X15. [extractLinks] throws exactly when the page holds an [href] that
    is not skipped and whose resolution cannot be parsed as a URL, or that
    meets a base URL that cannot; the error is always [Invalid URL].  One
    such [href] makes the whole extraction fail, and without one an invalid
    base URL does no harm. *)
Theorem extractLinks_throws_iff html baseUrl e :
  extractLinks html baseUrl = Throw e ↔
  e = mkError "Invalid URL" ∧
  ∃ href, Some href ∈ hrefs html ∧
    skipped href = false ∧
    (URL_parse baseUrl = None ∨
     ∃ absoluteUrl, absolute href baseUrl = Return absoluteUrl ∧
                    URL_parse absoluteUrl = None).
Proof.
  unfold extractLinks.
  rewrite <- (collect_Throw_iff baseUrl e (hrefs html) [] (hrefs_defined html)).
  by destruct (collect baseUrl (hrefs html) []).
Qed.

Lemma collect_ext baseUrl1 baseUrl2 :
  (∀ href, visit baseUrl1 href = visit baseUrl2 href) →
  ∀ ms links, collect baseUrl1 ms links = collect baseUrl2 ms links.
Proof.
  intros Hv. induction ms as [|[href|] ms IH]; intros links; cbn [collect]; try done.
  rewrite Hv. destruct (visit baseUrl2 href) as [p|e]; cbn; [apply IH|done].
Qed.

(** X16. Only the scheme and the host of the base URL count: two base
    URLs that agree on both give the same links for every page.  The path
    of the base URL plays no role, so a relative [href] is always resolved
    against the root of the site. *)
Theorem extractLinks_base_path_ignored html baseUrl1 baseUrl2 base1 base2 :
  URL_parse baseUrl1 = Some base1 →
  URL_parse baseUrl2 = Some base2 →
  protocol base1 = protocol base2 →
  host base1 = host base2 →
  extractLinks html baseUrl1 = extractLinks html baseUrl2.
Proof.
  intros H1 H2 Hp Hh. unfold extractLinks.
  rewrite (collect_ext baseUrl1 baseUrl2); [done|].
  intros href. unfold visit, absolute, new_URL. rewrite H1, H2. cbn.
  by rewrite Hp, Hh.
Qed.

End ExtractionErrors.
End LinkExtractorMore.

(** *** The further properties on the reference platform *)

Module MoreExamples.
Import Demo DemoMore.

Lemma hrefs_written_in_page_witness :
  Some "/guide" ∈ LinkExtractor.hrefs page ∧
  ∃ href before a sp mid h r e f after,
    Some "/guide" = Some href ∧
    page = before +:+ anchor_text a sp mid h r e f href +:+ after ∧
    Regex.letter_ci "a" "A" a = true ∧
    sp ≠ EmptyString ∧ RegexSpec.all_chars Regex.white_space sp = true ∧
    RegexSpec.all_chars (Regex.other_than ">") mid = true ∧
    Regex.letter_ci "h" "H" h = true ∧ Regex.letter_ci "r" "R" r = true ∧
    Regex.letter_ci "e" "E" e = true ∧ Regex.letter_ci "f" "F" f = true ∧
    RegexSpec.all_chars (Regex.other_than Str.dquote) href = true.
Proof.
  assert (Hin : Some "/guide" ∈ LinkExtractor.hrefs page)
    by (apply (bool_decide_unpack _); vm_compute; exact I).
  split; [exact Hin|]. apply (HrefShape.hrefs_written_in_page page _ Hin).
Defined.

Lemma executeTest_settles_witness :
  0 ≤ 2 ∧
  let r := executeTest "Homepage loads" testHomepageLoads 2 world_late in
  ∃ p, outcome r = Return p ∧ name p = "Homepage loads" ∧
       duration p = Date_now (final r) - Date_now world_late.
Proof.
  split; [lia|].
  apply (executeTest_settles (PF:=platform) "Homepage loads" testHomepageLoads 2
           world_late).
  lia.
Defined.

Lemma executeTest_result_explains_witness :
  outcome (executeTest "Homepage loads" testHomepageLoads 2 world_down)
    = Return homepage_failed ∧
  (∀ j, (j ≤ Z.to_nat 2)%nat →
        ∃ e, outcome (testHomepageLoads (env_at testHomepageLoads world_down j))
             = Throw e) ∧
  ∃ e, outcome (testHomepageLoads (env_at testHomepageLoads world_down (Z.to_nat 2)))
       = Throw e ∧
       error homepage_failed = Some (message e).
Proof.
  assert (Hrun : outcome (executeTest "Homepage loads" testHomepageLoads 2 world_down)
                 = Return homepage_failed) by (vm_compute; reflexivity).
  split; [exact Hrun|].
  apply (executeTest_result_explains (PF:=platform) "Homepage loads"
           testHomepageLoads 2 world_down homepage_failed Hrun).
Defined.

Lemma testDocumentationPages_first_failure_witness :
  outcome (testDocumentationPages world_docs_gap)
    = Throw (mkError ("Page " +:+ "/docs/workflows/" +:+ " returned status "
                      +:+ Str.of_Z (statusCode not_found))) ∧
  requests (trace (testDocumentationPages world_docs_gap))
    = (λ p, SITE_URL +:+ p) <$> (["/docs/"] ++ ["/docs/workflows/"]).
Proof.
  apply (testDocumentationPages_first_failure (PF:=platform) world_docs_gap
           ["/docs/"] "/docs/workflows/" ["/docs/agents/"] not_found).
  - reflexivity.
  - split; [|exact I]. exists (html_page "docs"). split; vm_compute; reflexivity.
  - vm_compute. reflexivity.
  - vm_compute. discriminate.
Defined.


Lemma unparsable_site_fails_probes_witness :
  let r := executeTest (PF:=platform) "Homepage loads"
             (testHomepageLoads (PE:=unset_env)) 2 world_up in
  (∃ d, outcome r = Return {| name := "Homepage loads"; status := failed;
                              duration := d; attempts := 2 + 1;
                              error := Some "Invalid URL" |}) ∧
  requests (trace r) = [].
Proof.
  apply (unparsable_site_fails_probes (PF:=platform) (PE:=unset_env) 2 world_up
           "Homepage loads").
  - vm_compute. reflexivity.
  - lia.
  - by left.
Defined.

Lemma report_lists_every_probe_witness :
  outcome (run_probes suite world_up) = Return report_up ∧
  name <$> tests report_up = fst <$> suite ∧
  passed_count (summary report_up) = count_status passed (tests report_up) ∧
  failed_count (summary report_up) = count_status failed (tests report_up).
Proof.
  assert (Hrun : outcome (run_probes suite world_up) = Return report_up)
    by (vm_compute; reflexivity).
  split; [exact Hrun|].
  apply (report_lists_every_probe (PF:=platform) suite world_up report_up Hrun).
Defined.

Lemma runTests_on_outputs_witness :
  trace (runTests_on (PE:=workflow_env) (suite (PE:=workflow_env)) world_up) =
  trace (run_probes (PE:=workflow_env) (suite (PE:=workflow_env)) world_up)
  ++ EvWriteFile "/tmp/smoke-test-results.json" (JSON_stringify 2 report_up)
  :: match GITHUB_OUTPUT (ProcessEnv:=workflow_env) with
     | Some path =>
         if String.eqb path EmptyString then []
         else [EvAppendFile path (github_output report_up +:+ newline)]
     | None => []
     end.
Proof.
  apply (runTests_on_outputs (PF:=platform) (PE:=workflow_env) (suite (PE:=workflow_env)) world_up
           report_up Resolved).
  vm_compute. reflexivity.
Defined.

(** What a run inside a workflow appends for the pipeline. *)
Example github_output_up :
  github_output report_up
  = "results={}" +:+ newline +:+ "passed=true" +:+ newline +:+ "total=5"
    +:+ newline +:+ "passed-count=5" +:+ newline +:+ "failed-count=0".
Proof. vm_compute. reflexivity. Qed.

Lemma runTests_on_write_failure_witness :
  let r := runTests_on (PF:=read_only_platform) suite world_up in
  outcome r = Throw read_only ∧ exit_status (outcome r) = 1 ∧
  trace r = trace (run_probes (PF:=read_only_platform) suite world_up)
            ++ [EvWriteFile "/tmp/smoke-test-results.json" (JSON_stringify 2 report_up)].
Proof.
  apply (runTests_on_write_failure (PF:=read_only_platform) suite world_up report_up
           read_only world_up).
  - vm_compute. reflexivity.
  - vm_compute. reflexivity.
Defined.

Lemma extractLinks_base_path_ignored_witness :
  LinkExtractor.extractLinks page "https://docs.example.org/guide/intro"
  = LinkExtractor.extractLinks page "https://docs.example.org".
Proof.
  apply (LinkExtractorMore.extractLinks_base_path_ignored page
           "https://docs.example.org/guide/intro" "https://docs.example.org"
           (mkURL "https:" "docs.example.org" "docs.example.org" "" "/guide/intro" "")
           (mkURL "https:" "docs.example.org" "docs.example.org" "" "/" ""));
    vm_compute; reflexivity.
Defined.

Lemma runTests_on_negative_retries_witness :
  let r := runTests_on (PF:=platform) (PE:=negative_env) (suite (PE:=negative_env)) world_up in
  outcome r = Throw (mkError "Cannot read properties of null (reading 'message')") ∧
  trace r = [] ∧ final r = world_up ∧ exit_status (outcome r) = 1.
Proof.
  apply (runTests_on_negative_retries (PF:=platform) (PE:=negative_env)
           (suite (PE:=negative_env)) world_up).
  - vm_compute. reflexivity.
  - discriminate.
Defined.

End MoreExamples.
